(** * Credential lifecycle manager: [src/backend/services/tokenManager.js]

    A shallow embedding of the [TokenManager] class and of the event loop
    that drives it, followed by the properties of the rotation scheduler.

    The class is asynchronous JavaScript: an [async] method runs atomically
    from one [await] to the next, and several calls may be suspended at the
    same time.  Every method is therefore cut at its [await]s.  The piece
    that runs up to a network call ends in a suspension at a named
    [await_point]; the piece that runs when the call settles is a function
    of the outcome of the call.  The event loop is the function [step]. *)

From Stdlib Require Import ZArith String Bool List Lia.
From stdpp Require Import base list.
Import ListNotations.
Local Open Scope string_scope.
Local Open Scope list_scope.
Local Open Scope Z_scope.

(** ** JavaScript values *)

(** The values the class handles: a string, or [undefined] ([None]).
    Environment variables, the configured tokens, the current token and the
    [accessToken] field of a response are all of this kind. *)
Definition value : Type := option string.

(** [!!v]: [undefined] and the empty string are falsy. *)
Definition truthy (v : value) : bool :=
  match v with
  | Some s => negb (String.eqb s "")
  | None => false
  end.

(** [a === b] *)
Definition strict_eq (a b : value) : bool :=
  match a, b with
  | Some x, Some y => String.eqb x y
  | None, None => true
  | _, _ => false
  end.

(** [`${v}`] *)
Definition template (v : value) : string :=
  match v with
  | Some s => s
  | None => "undefined"
  end.

(** A thrown [Error]: its message, the status of [error.response] when the
    server answered, and whether [error.request] is set. *)
Record error : Type := mkError {
  message : string;
  response : option Z;
  request : bool
}.

(** How a call ends: it returns, or it throws (a promise fulfils, or it
    rejects). *)
Inductive completion (A : Type) : Type :=
| Normal (a : A)
| Abrupt (e : error).
Arguments Normal {A} a.
Arguments Abrupt {A} e.

(** ** The object *)

Record Tokens : Type := mkTokens {
  primary : value;
  secondary : value;
  service : value
}.

Record ClientCredentials : Type := mkClientCredentials {
  clientId : value;
  clientSecret : value
}.

Record TokenManager : Type := mkTokenManager {
  tokens : Tokens;
  clientCredentials : ClientCredentials;
  currentToken : value;
  lastRotation : Z;
  rotationInterval : Z;
  isRotating : bool
}.

Definition with_currentToken (v : value) (tm : TokenManager) : TokenManager :=
  mkTokenManager (tokens tm) (clientCredentials tm) v (lastRotation tm)
                 (rotationInterval tm) (isRotating tm).

Definition with_lastRotation (t : Z) (tm : TokenManager) : TokenManager :=
  mkTokenManager (tokens tm) (clientCredentials tm) (currentToken tm) t
                 (rotationInterval tm) (isRotating tm).

Definition with_isRotating (b : bool) (tm : TokenManager) : TokenManager :=
  mkTokenManager (tokens tm) (clientCredentials tm) (currentToken tm)
                 (lastRotation tm) (rotationInterval tm) b.

(** [process.env] *)
Record environment : Type := mkEnvironment {
  PORT_API_TOKEN_PRIMARY : value;
  PORT_API_TOKEN_SECONDARY : value;
  PORT_SERVICE_TOKEN : value;
  PORT_CLIENT_ID : value;
  PORT_CLIENT_SECRET : value
}.

(** ** The network *)

Inductive http_method : Type := GET | POST.

(** A request handed to axios.  [path] is appended to [portService.baseURL];
    [body] is the pair [{clientId, clientSecret}] of the token exchange. *)
Record http_request : Type := mkRequest {
  method : http_method;
  path : string;
  headers : list (string * string);
  timeout : Z;
  body : option (value * value)
}.

(** The body of an answer, as far as the destructuring of line 119 looks
    at it: [null] or [undefined], which cannot be destructured, or a value
    with the given [accessToken] property ([undefined] when it has
    none). *)
Inductive response_body : Type :=
| NoBody
| Body (accessToken : value).

Record http_response : Type := mkHttpResponse {
  status : Z;
  data : response_body
}.

(** An answer whose body carries the given [accessToken]. *)
Definition mkResponse (st : Z) (accessToken : value) : http_response :=
  {| status := st; data := Body accessToken |}.

(** What the [try] block around an axios call observes: the promise fulfils
    with a response, or it rejects (a transport error, the 10 s timeout, a
    status axios refuses).  [require('./portService')] is taken to succeed:
    the module is part of the same application. *)
Inductive axios_outcome : Type :=
| Fulfilled (r : http_response)
| Rejected (e : error).

(** ** Observable effects *)

Inductive level : Type := Log | Warn | Error.

Inductive event : Type :=
| Request (r : http_request)
| SetCurrentToken (v : value)
| SetLastRotation (t : Z)
| SetIsRotating (b : bool)
| Console (l : level) (msg : string)
| UnhandledRejection (e : error).

(** ** A monad for one atomic run of code: the object and the log *)

Definition M (A : Type) : Type := TokenManager -> A * TokenManager * list event.

Definition ret {A} (a : A) : M A := fun tm => (a, tm, []).

Definition bind {A B} (c : M A) (k : A -> M B) : M B :=
  fun tm =>
    let '(a, tm1, es1) := c tm in
    let '(b, tm2, es2) := k a tm1 in
    (b, tm2, es1 ++ es2).

Notation "x <- c ;; k" := (bind c (fun x => k))
  (at level 100, c at next level, right associativity).
Notation "c ;; k" := (bind c (fun _ => k))
  (at level 100, right associativity).

Definition this : M TokenManager := fun tm => (tm, tm, []).
Definition emit (e : event) : M unit := fun tm => (tt, tm, [e]).
Definition console (l : level) (msg : string) : M unit := emit (Console l msg).

Definition set_currentToken (v : value) : M unit :=
  fun tm => (tt, with_currentToken v tm, [SetCurrentToken v]).
Definition set_lastRotation (t : Z) : M unit :=
  fun tm => (tt, with_lastRotation t tm, [SetLastRotation t]).
Definition set_isRotating (b : bool) : M unit :=
  fun tm => (tt, with_isRotating b tm, [SetIsRotating b]).

(** ** Suspension points *)

(** The [await]s of [rotateToken], by line.  A suspended call is one of
    these, with the argument a pending validation was called with
    ([this.currentToken] of line 162, the local [newToken] of line 185; the
    configured tokens of lines 195 and 199 never change). *)
Inductive rotate_await : Type :=
| AtGenerateNoToken                     (* line 150 *)
| AtValidateCurrent (token : value)     (* line 162 *)
| AtGenerateInvalid                     (* line 170 *)
| AtValidateBackup (newToken : value)   (* line 185 *)
| AtValidatePrimary                     (* line 195 *)
| AtValidateSecondary.                  (* line 199 *)

(** The same points when the awaited call has completed: the value it
    returned, or what it threw. *)
Inductive resumption : Type :=
| GenerateNoTokenDone (c : completion value)
| ValidateCurrentDone (c : completion bool)
| GenerateInvalidDone (c : completion value)
| ValidateBackupDone (newToken : value) (c : completion bool)
| ValidatePrimaryDone (c : completion bool)
| ValidateSecondaryDone (c : completion bool).

(** How a piece of the [try] block of [rotateToken] ends. *)
Inductive signal : Type :=
| Suspend (p : rotate_await)
| Return
| Throw (e : error).

(** How a call of an async method stands after a piece has run. *)
Inductive settle (P : Type) : Type :=
| Pending (p : P)
| Settled (c : completion unit).
Arguments Pending {P} p.
Arguments Settled {P} c.

(** ** [validateToken] (lines 71-90) *)

Definition validateToken_request (token : value) : http_request :=
  {| method := GET;
     path := "/v1/blueprints";
     headers := [("Authorization", "Bearer " ++ template token)%string;
                 ("Content-Type", "application/json")];
     timeout := 10000;
     body := None |}.

(** Up to the [await] of line 77. *)
Definition validateToken_begin (token : value) : M unit :=
  emit (Request (validateToken_request token)).

(** From the [await] of line 77 on. *)
Definition validateToken_end (o : axios_outcome) : M (completion bool) :=
  match o with
  | Fulfilled r => ret (Normal (status r =? 200))
  | Rejected e =>
      console Error "Token validation failed:" ;;
      ret (Normal false)
  end.

(** ** [generateNewToken] (lines 92-138) *)

Definition generateNewToken_request (cc : ClientCredentials) : http_request :=
  {| method := POST;
     path := "/v1/auth/access_token";
     headers := [("Content-Type", "application/json")];
     timeout := 10000;
     body := Some (clientId cc, clientSecret cc) |}.

Definition credentials_missing : error :=
  mkError "Client credentials not configured. Set PORT_CLIENT_ID and PORT_CLIENT_SECRET."
          None false.

(** Up to the [await] of line 108; [Abrupt] when line 98 throws. *)
Definition generateNewToken_begin : M (completion unit) :=
  tm <- this ;;
  if negb (truthy (clientId (clientCredentials tm)))
     || negb (truthy (clientSecret (clientCredentials tm)))
  then
    console Error (message credentials_missing) ;;
    console Error "PORT_CLIENT_ID:" ;;
    console Error "PORT_CLIENT_SECRET:" ;;
    ret (Abrupt credentials_missing)
  else
    console Log "Generating new token..." ;;
    console Log "Using Client ID:" ;;
    emit (Request (generateNewToken_request (clientCredentials tm))) ;;
    ret (Normal tt).

(** The [catch] of lines 125-137: report, then throw again. *)
Definition generateNewToken_catch (e : error) : M (completion value) :=
  console Error "Token generation failed:" ;;
  match response e with
  | Some _ => console Error "Status:" ;; console Error "Data:"
  | None =>
      if request e
      then console Error "Request made but no response received" ;;
           console Error "URL:"
      else console Error "Error:"
  end ;;
  ret (Abrupt e).

(** From the [await] of line 108 on. *)
Definition generateNewToken_end (o : axios_outcome) : M (completion value) :=
  match o with
  | Fulfilled r =>
      if status r =? 200
      then
        match data r with
        | Body accessToken =>
            console Log "Generated new token" ;; ret (Normal accessToken)
        | NoBody =>
            generateNewToken_catch
              (mkError "Cannot destructure property 'accessToken'" None false)
        end
      else generateNewToken_catch (mkError "Failed to generate token" None false)
  | Rejected e => generateNewToken_catch e
  end.

(** ** [rotateToken] (lines 140-212) *)

(** The assignments every successful branch makes. *)
Definition adopt (token : value) (now : Z) (msg : string) : M signal :=
  set_currentToken token ;;
  set_lastRotation now ;;
  console Log msg ;;
  ret Return.

(** Lines 203-205. *)
Definition no_valid_tokens : M signal :=
  console Warn "No valid tokens available" ;;
  ret Return.

(** Line 199, up to its [await]. *)
Definition probe_secondary : M signal :=
  tm <- this ;;
  if truthy (secondary (tokens tm))
  then validateToken_begin (secondary (tokens tm)) ;;
       ret (Suspend AtValidateSecondary)
  else no_valid_tokens.

(** Line 195, up to its [await]. *)
Definition probe_primary : M signal :=
  tm <- this ;;
  if truthy (primary (tokens tm))
  then validateToken_begin (primary (tokens tm)) ;;
       ret (Suspend AtValidatePrimary)
  else probe_secondary.

(** Lines 180-185, up to the [await], and the [else] of line 189. *)
Definition backup_rotation : M signal :=
  tm <- this ;;
  let newToken := if strict_eq (currentToken tm) (primary (tokens tm))
                  then secondary (tokens tm)
                  else primary (tokens tm) in
  if truthy newToken
  then validateToken_begin newToken ;;
       ret (Suspend (AtValidateBackup newToken))
  else console Warn "All tokens appear to be invalid" ;;
       ret Return.

(** Line 176, the [catch] of the generation of line 170. *)
Definition generate_invalid_failed (e : error) : M signal :=
  console Warn "Programmatic token generation failed, trying backup tokens" ;;
  backup_rotation.

(** Lines 165-170, up to the [await]. *)
Definition current_invalid : M signal :=
  console Log "Current token invalid, attempting rotation..." ;;
  tm <- this ;;
  if truthy (clientId (clientCredentials tm))
     && truthy (clientSecret (clientCredentials tm))
  then
    g <- generateNewToken_begin ;;
    match g with
    | Normal _ => ret (Suspend AtGenerateInvalid)
    | Abrupt e => generate_invalid_failed e
    end
  else backup_rotation.

(** Lines 160-162, up to the [await], and the [else] of line 193. *)
Definition test_current : M signal :=
  tm <- this ;;
  if truthy (currentToken tm)
  then validateToken_begin (currentToken tm) ;;
       ret (Suspend (AtValidateCurrent (currentToken tm)))
  else probe_primary.

(** Line 156, the [catch] of the generation of line 150. *)
Definition generate_no_token_failed (e : error) : M signal :=
  console Warn "Failed to generate token from client credentials:" ;;
  test_current.

(** The [try] block from line 146, up to its first [await]. *)
Definition rotateToken_try : M signal :=
  tm <- this ;;
  if negb (truthy (currentToken tm))
     && truthy (clientId (clientCredentials tm))
     && truthy (clientSecret (clientCredentials tm))
  then
    console Log "No current token, generating from client credentials..." ;;
    g <- generateNewToken_begin ;;
    match g with
    | Normal _ => ret (Suspend AtGenerateNoToken)
    | Abrupt e => generate_no_token_failed e
    end
  else test_current.

(** The [try] block from an [await] on, once the awaited call has
    completed; [now] is what [Date.now()] reads in this run. *)
Definition rotateToken_after (r : resumption) (now : Z) : M signal :=
  match r with
  | GenerateNoTokenDone (Normal newToken) =>
      adopt newToken now "Token generated successfully from client credentials"
  | GenerateNoTokenDone (Abrupt e) => generate_no_token_failed e
  | ValidateCurrentDone (Normal isValid) =>
      if negb isValid then current_invalid else ret Return
  | GenerateInvalidDone (Normal newToken) =>
      adopt newToken now "Token rotated successfully (programmatically generated)"
  | GenerateInvalidDone (Abrupt e) => generate_invalid_failed e
  | ValidateBackupDone newToken (Normal ok) =>
      if ok
      then adopt newToken now "Token rotated successfully (backup token)"
      else console Warn "All tokens appear to be invalid" ;; ret Return
  | ValidatePrimaryDone (Normal ok) =>
      if ok
      then tm <- this ;; adopt (primary (tokens tm)) now "Using primary token"
      else probe_secondary
  | ValidateSecondaryDone (Normal ok) =>
      if ok
      then tm <- this ;; adopt (secondary (tokens tm)) now "Using secondary token"
      else no_valid_tokens
  | ValidateCurrentDone (Abrupt e)
  | ValidateBackupDone _ (Abrupt e)
  | ValidatePrimaryDone (Abrupt e)
  | ValidateSecondaryDone (Abrupt e) => ret (Throw e)
  end.

(** [try { ... } catch (error) { ... } finally { this.isRotating = false }]
    around a piece (lines 145, 207-211): a suspended piece stays inside the
    [try]; a piece that returns or throws leaves through the [finally]. *)
Definition try_catch_finally (piece : M signal) : M (settle rotate_await) :=
  s <- piece ;;
  match s with
  | Suspend p => ret (Pending p)
  | Return =>
      set_isRotating false ;;
      ret (Settled (Normal tt))
  | Throw e =>
      console Error "Token rotation error:" ;;
      set_isRotating false ;;
      ret (Settled (Normal tt))
  end.

(** A call of [rotateToken], up to its first [await]. *)
Definition rotateToken : M (settle rotate_await) :=
  tm <- this ;;
  if isRotating tm then ret (Settled (Normal tt))
  else set_isRotating true ;;
       try_catch_finally rotateToken_try.

(** The awaited call of a suspended [rotateToken] completes. *)
Definition awaited (p : rotate_await) (o : axios_outcome) : M resumption :=
  match p with
  | AtGenerateNoToken => c <- generateNewToken_end o ;; ret (GenerateNoTokenDone c)
  | AtValidateCurrent _ => c <- validateToken_end o ;; ret (ValidateCurrentDone c)
  | AtGenerateInvalid => c <- generateNewToken_end o ;; ret (GenerateInvalidDone c)
  | AtValidateBackup newToken =>
      c <- validateToken_end o ;; ret (ValidateBackupDone newToken c)
  | AtValidatePrimary => c <- validateToken_end o ;; ret (ValidatePrimaryDone c)
  | AtValidateSecondary => c <- validateToken_end o ;; ret (ValidateSecondaryDone c)
  end.

(** A suspended [rotateToken] runs on, to its next [await] or to its end. *)
Definition rotateToken_resume (p : rotate_await) (o : axios_outcome) (now : Z)
  : M (settle rotate_await) :=
  try_catch_finally (r <- awaited p o ;; rotateToken_after r now).

(** ** [manualRotate] (lines 233-235): the promise is dropped. *)
Definition manualRotate : M (settle rotate_await) := rotateToken.

(** ** [initializeTokenFromCredentials] (lines 49-63) *)

(** The [catch] of lines 55-62: report, then throw again. *)
Definition initializeTokenFromCredentials_catch (e : error) : M (completion unit) :=
  console Error "Failed to generate initial token from client credentials:" ;;
  console Error "Please check that PORT_CLIENT_ID and PORT_CLIENT_SECRET are correct" ;;
  match response e with
  | Some _ => console Error "API Response:"
  | None => ret tt
  end ;;
  ret (Abrupt e).

(** Up to the [await] of line 51. *)
Definition initializeTokenFromCredentials : M (settle unit) :=
  g <- generateNewToken_begin ;;
  match g with
  | Normal _ => ret (Pending tt)
  | Abrupt e => c <- initializeTokenFromCredentials_catch e ;; ret (Settled c)
  end.

(** From the [await] of line 51 on. *)
Definition initializeTokenFromCredentials_resume (o : axios_outcome) (now : Z)
  : M (completion unit) :=
  c <- generateNewToken_end o ;;
  match c with
  | Normal newToken =>
      set_currentToken newToken ;;
      set_lastRotation now ;;
      console Log "Initial token generated successfully from client credentials" ;;
      ret (Normal tt)
  | Abrupt e => initializeTokenFromCredentials_catch e
  end.

(** The [.catch] of lines 40-42. *)
Definition initial_generation_settled (c : completion unit) : M unit :=
  match c with
  | Normal _ => ret tt
  | Abrupt e => console Error "Initial token generation failed:"
  end.

(** ** The read path (lines 214-230) *)

Definition getCurrentToken (tm : TokenManager) : value := currentToken tm.

(** The largest time value of a [Date]: 8.64e15 ms either side of the epoch. *)
Definition max_time : Z := 8640000000000000.

(** [new Date(t).toISOString()], for an integral [t]: the rendered instant,
    or a [RangeError] when [t] is no time value. *)
Inductive iso_string : Type := ISO (ms : Z).

Definition toISOString (t : Z) : completion iso_string :=
  if (- max_time <=? t) && (t <=? max_time)
  then Normal (ISO t)
  else Abrupt (mkError "Invalid time value" None false).

Definition presence (v : value) : string :=
  if truthy v then "Set" else "Not Set".

Record status_report : Type := mkStatus {
  report_currentToken : string;
  report_primaryToken : string;
  report_secondaryToken : string;
  report_serviceToken : string;
  report_clientId : string;
  report_clientSecret : string;
  report_lastRotation : iso_string;
  report_nextRotation : iso_string;
  report_isRotating : bool
}.

Definition getStatus (tm : TokenManager) : completion status_report :=
  match toISOString (lastRotation tm) with
  | Abrupt e => Abrupt e
  | Normal last =>
      match toISOString (lastRotation tm + rotationInterval tm) with
      | Abrupt e => Abrupt e
      | Normal next =>
          Normal {| report_currentToken := presence (currentToken tm);
                    report_primaryToken := presence (primary (tokens tm));
                    report_secondaryToken := presence (secondary (tokens tm));
                    report_serviceToken := presence (service (tokens tm));
                    report_clientId := presence (clientId (clientCredentials tm));
                    report_clientSecret := presence (clientSecret (clientCredentials tm));
                    report_lastRotation := last;
                    report_nextRotation := next;
                    report_isRotating := isRotating tm |}
      end
  end.

(** ** The process: the object and the calls in flight *)

(** A suspended call: the start-up generation, or a [rotateToken]. *)
Inductive task : Type :=
| Initializing
| Rotating (p : rotate_await).

Record system : Type := mkSystem {
  manager : TokenManager;
  inflight : list task
}.

(** What the event loop delivers: the interval timer of
    [startAutoRotation] fires, a collaborator calls [manualRotate], or the
    network call of the [i]-th suspended call settles with [o] while the
    clock reads [now]. *)
Inductive input : Type :=
| TimerTick
| ManualRotate
| Response (i : nat) (o : axios_outcome) (now : Z).

(** The object as lines 5-20 build it; [now] is [Date.now()] of line 18. *)
Definition initial_manager (env : environment) (now : Z) : TokenManager :=
  {| tokens := {| primary := PORT_API_TOKEN_PRIMARY env;
                  secondary := PORT_API_TOKEN_SECONDARY env;
                  service := PORT_SERVICE_TOKEN env |};
     clientCredentials := {| clientId := PORT_CLIENT_ID env;
                             clientSecret := PORT_CLIENT_SECRET env |};
     currentToken := PORT_API_TOKEN_PRIMARY env;
     lastRotation := now;
     rotationInterval := 9000000;
     isRotating := false |}.

(** Lines 22-46, run on the fresh object. *)
Definition constructor_body : M (list task) :=
  tm <- this ;;
  console Log "Token Manager initialized:" ;;
  console Log "Primary Token:" ;;
  console Log "Secondary Token:" ;;
  console Log "Service Token:" ;;
  console Log "Client ID:" ;;
  console Log "Client Secret:" ;;
  (if negb (truthy (primary (tokens tm)))
      && negb (truthy (clientId (clientCredentials tm)))
   then console Warn "WARNING: No token or client credentials set!" ;;
        console Warn "Set token:" ;;
        console Warn "Or set credentials:"
   else ret tt) ;;
  if negb (truthy (primary (tokens tm)))
     && truthy (clientId (clientCredentials tm))
     && truthy (clientSecret (clientCredentials tm))
  then
    console Log "No primary token found, generating initial token from client credentials..." ;;
    s <- initializeTokenFromCredentials ;;
    match s with
    | Pending _ => ret [Initializing]
    | Settled c => initial_generation_settled c ;; ret []
    end
  else ret [].

Definition constructor (env : environment) (now : Z) : system * list event :=
  let '(tasks, tm, es) := constructor_body (initial_manager env now) in
  (mkSystem tm tasks, es).

(** A call of [rotateToken] from the timer or from [manualRotate]: it runs to
    its first [await] and, if it suspends there, joins the calls in flight.
    Nobody holds its promise, so a rejection would be unhandled. *)
Definition call_rotateToken (sys : system) : system * list event :=
  let '(s, tm, es) := rotateToken (manager sys) in
  match s with
  | Pending p => (mkSystem tm (inflight sys ++ [Rotating p]), es)
  | Settled (Normal _) => (mkSystem tm (inflight sys), es)
  | Settled (Abrupt e) => (mkSystem tm (inflight sys), es ++ [UnhandledRejection e])
  end.

(** The [i]-th call in flight runs on with the outcome of its request. *)
Definition deliver (sys : system) (i : nat) (o : axios_outcome) (now : Z)
  : system * list event :=
  match inflight sys !! i with
  | None => (sys, [])
  | Some Initializing =>
      let '(_, tm, es) :=
        (c <- initializeTokenFromCredentials_resume o now ;;
         initial_generation_settled c) (manager sys) in
      (mkSystem tm (delete i (inflight sys)), es)
  | Some (Rotating p) =>
      let '(s, tm, es) := rotateToken_resume p o now (manager sys) in
      match s with
      | Pending p' => (mkSystem tm (<[i := Rotating p']> (inflight sys)), es)
      | Settled (Normal _) => (mkSystem tm (delete i (inflight sys)), es)
      | Settled (Abrupt e) =>
          (mkSystem tm (delete i (inflight sys)), es ++ [UnhandledRejection e])
      end
  end.

Definition step (sys : system) (inp : input) : system * list event :=
  match inp with
  | TimerTick => call_rotateToken sys
  | ManualRotate => call_rotateToken sys
  | Response i o now => deliver sys i o now
  end.

(** A run of the event loop, with everything it logged. *)
Fixpoint run (sys : system) (inps : list input) : system * list event :=
  match inps with
  | [] => (sys, [])
  | inp :: rest =>
      let '(sys1, es1) := step sys inp in
      let '(sys2, es2) := run sys1 rest in
      (sys2, es1 ++ es2)
  end.

(** The process from its start: the constructor, then the event loop. *)
Definition process (env : environment) (now : Z) (inps : list input)
  : system * list event :=
  let '(sys0, es0) := constructor env now in
  let '(sys, es) := run sys0 inps in
  (sys, es0 ++ es).

(** * Properties *)

(** ** Vocabulary of the statements *)

(** The answer of the remote service counts as a confirmation of the token:
    an explicit 200. *)
Definition validates (o : axios_outcome) : bool :=
  match o with
  | Fulfilled r => status r =? 200
  | Rejected _ => false
  end.

(** The token the remote service issued, if the exchange succeeded. *)
Definition issued (o : axios_outcome) : option value :=
  match o with
  | Fulfilled r =>
      if status r =? 200
      then match data r with
           | Body accessToken => Some accessToken
           | NoBody => None
           end
      else None
  | Rejected _ => None
  end.

Definition is_pending {P} (s : settle P) : bool :=
  match s with
  | Pending _ => true
  | Settled _ => false
  end.

(** The number of [rotateToken] calls in flight. *)
Fixpoint rotations (l : list task) : nat :=
  match l with
  | [] => 0%nat
  | Rotating _ :: l' => S (rotations l')
  | Initializing :: l' => rotations l'
  end.

(** The requests among the events of a run. *)
Fixpoint network_calls (es : list event) : list http_request :=
  match es with
  | [] => []
  | Request r :: es' => r :: network_calls es'
  | _ :: es' => network_calls es'
  end.

(** The assignments to [currentToken] and [lastRotation] among the events
    of a run. *)
Fixpoint mutations (es : list event) : list event :=
  match es with
  | [] => []
  | SetCurrentToken v :: es' => SetCurrentToken v :: mutations es'
  | SetLastRotation t :: es' => SetLastRotation t :: mutations es'
  | _ :: es' => mutations es'
  end.

Definition credentials_usable (tm : TokenManager) : bool :=
  truthy (clientId (clientCredentials tm))
  && truthy (clientSecret (clientCredentials tm)).

(** The token the fallback branch turns to (lines 181-183). *)
Definition other_token (tm : TokenManager) : value :=
  if strict_eq (currentToken tm) (primary (tokens tm))
  then secondary (tokens tm)
  else primary (tokens tm).

(** What a successful branch leaves in the object. *)
Definition adopted (token : value) (now : Z) (tm : TokenManager) : TokenManager :=
  with_lastRotation now (with_currentToken token tm).

(** The flag counts the calls of [rotateToken] in flight. *)
Definition guard_invariant (sys : system) : Prop :=
  rotations (inflight sys) = if isRotating (manager sys) then 1%nat else 0%nat.

(** One rotation attempt run on its own: [manualRotate] is called, and the
    successive network calls of the attempt settle with [answers], each
    with the reading of the clock at that moment; nothing else runs in
    between.  The call, if it suspends, is the last in flight. *)
Definition attempt (sys : system) (answers : list (axios_outcome * Z))
  : system * list event :=
  run sys (ManualRotate
           :: map (fun a => Response (length (inflight sys)) a.1 a.2) answers).

(** The same attempt seen from the object alone. *)
Fixpoint drive (s : settle rotate_await) (tm : TokenManager)
         (answers : list (axios_outcome * Z))
  : settle rotate_await * TokenManager * list event :=
  match s, answers with
  | Pending p, a :: rest =>
      let '(s1, tm1, es1) := rotateToken_resume p a.1 a.2 tm in
      let '(s2, tm2, es2) := drive s1 tm1 rest in
      (s2, tm2, es1 ++ es2)
  | _, _ => (s, tm, [])
  end.

Definition tasks_of (s : settle rotate_await) : list task :=
  match s with
  | Pending p => [Rotating p]
  | Settled _ => []
  end.

(** The token an answer [o] makes the suspended call [t] adopt: the token
    issued to a generation, the token confirmed for a fallback or probe.
    A confirmation of the token already held establishes nothing. *)
Definition establishes (tm : TokenManager) (t : task) (o : axios_outcome)
  : option value :=
  match t with
  | Initializing
  | Rotating AtGenerateNoToken
  | Rotating AtGenerateInvalid => issued o
  | Rotating (AtValidateCurrent _) => None
  | Rotating (AtValidateBackup newToken) =>
      if validates o then Some newToken else None
  | Rotating AtValidatePrimary =>
      if validates o then Some (primary (tokens tm)) else None
  | Rotating AtValidateSecondary =>
      if validates o then Some (secondary (tokens tm)) else None
  end.

(** The token and the stamp an input establishes, if any. *)
Definition established_by (sys : system) (inp : input) : option (value * Z) :=
  match inp with
  | Response i o now =>
      match inflight sys !! i with
      | Some t =>
          match establishes (manager sys) t o with
          | Some v => Some (v, now)
          | None => None
          end
      | None => None
      end
  | TimerTick | ManualRotate => None
  end.

(** The assignments to the store come in pairs, a token then its stamp. *)
Fixpoint paired (ms : list event) : bool :=
  match ms with
  | [] => true
  | SetCurrentToken _ :: SetLastRotation _ :: rest => paired rest
  | _ => false
  end.




(** An input that brings no token: a trigger, an answer to the validation
    of the token held, or an answer that is not a success. *)
Definition fruitless_input (sys : system) (inp : input) : bool :=
  match inp with
  | Response i o _ =>
      match inflight sys !! i with
      | Some (Rotating (AtValidateCurrent _)) => true
      | _ => negb (validates o)
      end
  | TimerTick | ManualRotate => true
  end.

Fixpoint fruitless (sys : system) (inps : list input) : bool :=
  match inps with
  | [] => true
  | inp :: rest => fruitless_input sys inp && fruitless (step sys inp).1 rest
  end.

(** A reading of the clock that [getStatus] can render, together with the
    next rotation 2.5 hours later. *)
Definition clock_ok (t : Z) : Prop :=
  - max_time <= t /\ t + 9000000 <= max_time.

Definition input_clock_ok (inp : input) : Prop :=
  match inp with
  | Response _ _ now => clock_ok now
  | TimerTick | ManualRotate => True
  end.

Definition same_config (tm tm' : TokenManager) : Prop :=
  tokens tm' = tokens tm
  /\ clientCredentials tm' = clientCredentials tm
  /\ rotationInterval tm' = rotationInterval tm.



(** The greatest number of network calls a suspended [rotateToken] can
    still make. *)
Definition calls_left (s : settle rotate_await) : nat :=
  match s with
  | Settled _ => 0
  | Pending AtGenerateNoToken => 4
  | Pending (AtValidateCurrent _) => 3
  | Pending AtGenerateInvalid => 2
  | Pending AtValidatePrimary => 2
  | Pending (AtValidateBackup _) => 1
  | Pending AtValidateSecondary => 1
  end%nat.

(** What [getStatus] needs of the object. *)
Definition renderable (tm : TokenManager) : Prop :=
  clock_ok (lastRotation tm) /\ rotationInterval tm = 9000000.

(** ** Vocabulary of the further properties *)

(** The test of line 37: the constructor launches the start-up generation. *)
Definition launches_start_up (env : environment) : bool :=
  negb (truthy (PORT_API_TOKEN_PRIMARY env))
  && truthy (PORT_CLIENT_ID env)
  && truthy (PORT_CLIENT_SECRET env).

(** The number of start-up generations in flight. *)
Fixpoint initializations (l : list task) : nat :=
  match l with
  | [] => 0%nat
  | Initializing :: l' => S (initializations l')
  | Rotating _ :: l' => initializations l'
  end.

(** An environment with nothing to work with: no static token to hold or
    to probe, and no complete pair of client credentials. *)
Definition unconfigured (env : environment) : bool :=
  negb (truthy (PORT_API_TOKEN_PRIMARY env))
  && negb (truthy (PORT_API_TOKEN_SECONDARY env))
  && negb (truthy (PORT_CLIENT_ID env) && truthy (PORT_CLIENT_SECRET env)).

(** The answers of a run that reached a call in flight. *)
Fixpoint answered (sys : system) (inps : list input) : nat :=
  match inps with
  | [] => 0%nat
  | inp :: rest =>
      (match inp with
       | Response i _ _ =>
           match inflight sys !! i with
           | Some _ => 1%nat
           | None => 0%nat
           end
       | TimerTick | ManualRotate => 0%nat
       end + answered (step sys inp).1 rest)%nat
  end.

(** A suspended call that waits for a token exchange. *)
Definition is_exchange (t : task) : bool :=
  match t with
  | Initializing
  | Rotating AtGenerateNoToken
  | Rotating AtGenerateInvalid => true
  | Rotating _ => false
  end.

(** An input that does not bring an empty token: if it is the successful
    answer to a token exchange, the [accessToken] it carries is set.
    Answers to validations are not concerned. *)
Definition exchange_truthy (sys : system) (inp : input) : bool :=
  match inp with
  | Response i o _ =>
      match inflight sys !! i with
      | Some t =>
          if is_exchange t
          then match issued o with
               | Some v => truthy v
               | None => true
               end
          else true
      | None => true
      end
  | TimerTick | ManualRotate => true
  end.

Fixpoint exchanges_truthy (sys : system) (inps : list input) : bool :=
  match inps with
  | [] => true
  | inp :: rest =>
      exchange_truthy sys inp && exchanges_truthy (step sys inp).1 rest
  end.

(** C7 as the specification words it, for one step: if the step moves
    [lastRotation], it answers a call of [rotateToken] and leaves a current
    token that is set. *)
Definition stamp_by_confirming_rotation (sys : system) (inp : input) : Prop :=
  lastRotation (manager (step sys inp).1) <> lastRotation (manager sys) ->
  (exists i o now p,
      inp = Response i o now /\ inflight sys !! i = Some (Rotating p))
  /\ truthy (currentToken (manager (step sys inp).1)) = true.

(** The token a pending validation of a static token would adopt is set. *)
Definition pending_token_set (tm : TokenManager) (t : task) : Prop :=
  match t with
  | Rotating (AtValidateBackup newToken) => truthy newToken = true
  | Rotating AtValidatePrimary => truthy (primary (tokens tm)) = true
  | Rotating AtValidateSecondary => truthy (secondary (tokens tm)) = true
  | _ => True
  end.

(** A request the class may send: the validation of a token that is set, or
    the exchange of a complete pair of credentials. *)
Definition sound_request (cc : ClientCredentials) (r : http_request) : Prop :=
  (exists token, truthy token = true /\ r = validateToken_request token)
  \/ (truthy (clientId cc) = true
      /\ truthy (clientSecret cc) = true
      /\ r = generateNewToken_request cc).

(** Two objects that [getStatus] cannot tell apart: the same bookkeeping,
    and every credential set in one exactly when it is set in the other. *)
Definition same_presence (tm tm' : TokenManager) : Prop :=
  lastRotation tm = lastRotation tm'
  /\ rotationInterval tm = rotationInterval tm'
  /\ isRotating tm = isRotating tm'
  /\ truthy (currentToken tm) = truthy (currentToken tm')
  /\ truthy (primary (tokens tm)) = truthy (primary (tokens tm'))
  /\ truthy (secondary (tokens tm)) = truthy (secondary (tokens tm'))
  /\ truthy (service (tokens tm)) = truthy (service (tokens tm'))
  /\ truthy (clientId (clientCredentials tm))
     = truthy (clientId (clientCredentials tm'))
  /\ truthy (clientSecret (clientCredentials tm))
     = truthy (clientSecret (clientCredentials tm')).

(** The configuration part of the object the constructor builds. *)
Definition configured_tokens (env : environment) : Tokens :=
  {| primary := PORT_API_TOKEN_PRIMARY env;
     secondary := PORT_API_TOKEN_SECONDARY env;
     service := PORT_SERVICE_TOKEN env |}.

Definition configured_credentials (env : environment) : ClientCredentials :=
  {| clientId := PORT_CLIENT_ID env;
     clientSecret := PORT_CLIENT_SECRET env |}.

(** The greatest number of answers a [rotateToken] call may still have to
    wait for when nothing else runs in between; a call suspended at line
    150 found no current token. *)
Definition budget (tm : TokenManager) (s : settle rotate_await) : nat :=
  match s with
  | Settled _ => 0
  | Pending AtGenerateNoToken => if truthy (currentToken tm) then 4 else 3
  | Pending (AtValidateCurrent _) => 3
  | Pending AtGenerateInvalid => 2
  | Pending AtValidatePrimary => 2
  | Pending (AtValidateBackup _) => 1
  | Pending AtValidateSecondary => 1
  end%nat.

(** Every pending validation of a static token is for a token that is set. *)
Definition pending_tokens_set (sys : system) : Prop :=
  Forall (pending_token_set (manager sys)) (inflight sys).

(** The clock readings a run delivers. *)
Fixpoint clocks (inps : list input) : list Z :=
  match inps with
  | [] => []
  | Response _ _ now :: rest => now :: clocks rest
  | _ :: rest => clocks rest
  end.

(** ** Sample configurations and answers *)

Definition nothing_configured : environment :=
  {| PORT_API_TOKEN_PRIMARY := None;
     PORT_API_TOKEN_SECONDARY := Some "";
     PORT_SERVICE_TOKEN := Some "svc";
     PORT_CLIENT_ID := Some "client-id";
     PORT_CLIENT_SECRET := None |}.


(** A manager left without a current token: the exchange of an earlier
    attempt was answered 200 by a body without [accessToken]. *)
Definition token_lost : TokenManager :=
  {| tokens := {| primary := Some "tok-A";
                  secondary := Some "tok-B";
                  service := None |};
     clientCredentials := {| clientId := Some "client-id";
                             clientSecret := Some "client-secret" |};
     currentToken := None;
     lastRotation := 3;
     rotationInterval := 9000000;
     isRotating := false |}.

Definition fully_configured : environment :=
  {| PORT_API_TOKEN_PRIMARY := Some "tok-A";
     PORT_API_TOKEN_SECONDARY := Some "tok-B";
     PORT_SERVICE_TOKEN := None;
     PORT_CLIENT_ID := Some "client-id";
     PORT_CLIENT_SECRET := Some "client-secret" |}.

Definition static_tokens : environment :=
  {| PORT_API_TOKEN_PRIMARY := Some "tok-A";
     PORT_API_TOKEN_SECONDARY := Some "tok-B";
     PORT_SERVICE_TOKEN := None;
     PORT_CLIENT_ID := None;
     PORT_CLIENT_SECRET := None |}.

Definition only_credentials : environment :=
  {| PORT_API_TOKEN_PRIMARY := None;
     PORT_API_TOKEN_SECONDARY := None;
     PORT_SERVICE_TOKEN := None;
     PORT_CLIENT_ID := Some "client-id";
     PORT_CLIENT_SECRET := Some "client-secret" |}.

Definition generated_then_rejected : TokenManager :=
  {| tokens := {| primary := Some "tok-A";
                  secondary := Some "tok-B";
                  service := None |};
     clientCredentials := {| clientId := Some "client-id";
                             clientSecret := Some "client-secret" |};
     currentToken := Some "tok-G";
     lastRotation := 0;
     rotationInterval := 9000000;
     isRotating := false |}.

Definition unauthorized : axios_outcome :=
  Rejected (mkError "Request failed with status code 401" (Some 401) true).


Definition confirmed : axios_outcome := Fulfilled (mkResponse 200 None).


(** ** Proof tools *)

Ltac unfold_monad :=
  cbv [bind ret this emit console set_currentToken set_lastRotation
       set_isRotating with_currentToken with_lastRotation with_isRotating
       adopted] in *.

Ltac unfold_methods :=
  unfold rotateToken_resume, manualRotate, rotateToken, try_catch_finally,
    awaited, rotateToken_after, rotateToken_try, generate_no_token_failed,
    test_current, current_invalid, generate_invalid_failed, backup_rotation,
    probe_primary, probe_secondary, no_valid_tokens, adopt,
    initializeTokenFromCredentials_resume, initializeTokenFromCredentials,
    initializeTokenFromCredentials_catch, initial_generation_settled,
    generateNewToken_end, generateNewToken_catch, generateNewToken_begin,
    validateToken_end, validateToken_begin,
    other_token, credentials_usable, mkResponse in *.

(** Case analysis on a test the goal is stuck on, using what is known. *)
Ltac split_if :=
  match goal with
  | H : strict_eq ?a ?b = _ |- context [strict_eq ?a ?b] => rewrite H
  | H : truthy ?v = _ |- context [truthy ?v] => rewrite H
  | H : (?x =? ?y) = _ |- context [?x =? ?y] => rewrite H
  | |- context [strict_eq ?a ?b] => destruct (strict_eq a b) eqn:?
  | |- context [truthy ?v] =>
      lazymatch v with
      | context [if _ then _ else _] => fail
      | _ => destruct (truthy v) eqn:?
      end
  | |- context [?x =? ?y] => destruct (x =? y) eqn:?
  | |- context [if ?b then _ else _] =>
      lazymatch b with
      | context [if _ then _ else _] => fail
      | context [match _ with _ => _ end] => fail
      | _ => destruct b eqn:?
      end
  | |- context [match ?x with _ => _ end] =>
      lazymatch x with
      | context [if _ then _ else _] => fail
      | context [match _ with _ => _ end] => fail
      | _ => destruct x eqn:?
      end
  end.

Ltac open_manager tm :=
  let p := fresh "prim" in let s := fresh "sec" in let v := fresh "serv" in
  let ci := fresh "cid" in let cs := fresh "csec" in
  let cur := fresh "cur" in let last := fresh "last" in
  let intv := fresh "intv" in let rot := fresh "rot" in
  destruct tm as [[p s v] [ci cs] cur last intv rot].

Ltac crunch :=
  unfold_methods; unfold_monad; simpl in *; repeat (split_if; simpl in *).

(** ** The reentrancy guard *)

(** A piece of [rotateToken] leaves the flag alone; the [finally] clears
    it exactly when the call settles. *)
Lemma rotateToken_after_guard r now tm :
  let '(s, tm', _) := try_catch_finally (rotateToken_after r now) tm in
  isRotating tm' = isRotating tm && is_pending s
  /\ forall e, s <> Settled (Abrupt e).
Proof.
  open_manager tm.
  destruct r as [[]|[[]|]|[]|? [[]|]|[[]|]|[[]|]]; crunch.
  all: split; [now destruct rot | congruence].
Qed.

Lemma rotateToken_resume_guard p o now tm :
  let '(s, tm', _) := rotateToken_resume p o now tm in
  isRotating tm' = isRotating tm && is_pending s
  /\ forall e, s <> Settled (Abrupt e).
Proof.
  open_manager tm.
  destruct p, o as [[st tok]|e]; crunch.
  all: split; [now destruct rot | congruence].
Qed.

Lemma rotateToken_busy tm :
  isRotating tm = true -> rotateToken tm = (Settled (Normal tt), tm, []).
Proof. intros H. unfold rotateToken. unfold_monad. now rewrite H. Qed.

Lemma rotateToken_idle tm :
  isRotating tm = false ->
  let '(s, tm', _) := rotateToken tm in
  isRotating tm' = is_pending s /\ forall e, s <> Settled (Abrupt e).
Proof.
  open_manager tm. simpl. intros ->. crunch.
  all: split; [reflexivity | congruence].
Qed.

Lemma initialize_resume_guard o now tm :
  let '(_, tm', _) :=
    (c <- initializeTokenFromCredentials_resume o now ;;
     initial_generation_settled c) tm in
  isRotating tm' = isRotating tm.
Proof.
  open_manager tm. destruct o as [[st tok]|e]; crunch; reflexivity.
Qed.

Lemma rotations_app l p : rotations (l ++ [Rotating p]) = S (rotations l).
Proof. induction l as [|[|q] l IH]; simpl; congruence. Qed.

Lemma rotations_delete_initializing l i :
  l !! i = Some Initializing -> rotations (delete i l) = rotations l.
Proof.
  revert i; induction l as [|t l IH]; intros [|i] H; simpl in *; try discriminate.
  - now inversion H.
  - destruct t; simpl; auto.
Qed.

Lemma rotations_delete_rotating l i p :
  l !! i = Some (Rotating p) -> S (rotations (delete i l)) = rotations l.
Proof.
  revert i; induction l as [|t l IH]; intros [|i] H; simpl in *; try discriminate.
  - now inversion H.
  - destruct t; simpl; auto.
Qed.

Lemma rotations_insert_rotating l i p p' :
  l !! i = Some (Rotating p) ->
  rotations (<[i := Rotating p']> l) = rotations l.
Proof.
  revert i; induction l as [|t l IH]; intros [|i] H; simpl in *; try discriminate.
  - now inversion H.
  - destruct t; simpl; auto.
Qed.

Lemma constructor_guard env now : guard_invariant (constructor env now).1.
Proof.
  unfold guard_invariant, constructor, constructor_body, initial_manager.
  destruct env as [p s v ci cs]. crunch; reflexivity.
Qed.

Lemma call_rotateToken_guard sys :
  guard_invariant sys -> guard_invariant (call_rotateToken sys).1.
Proof.
  unfold guard_invariant, call_rotateToken. destruct sys as [tm l]. simpl.
  intros Inv. destruct (isRotating tm) eqn:R.
  - rewrite (rotateToken_busy tm R). simpl. now rewrite R.
  - pose proof (rotateToken_idle tm R) as G.
    destruct (rotateToken tm) as [[s tm'] es]. destruct G as [G _].
    destruct s as [p|[[]|e]]; simpl in *; rewrite G.
    + now rewrite rotations_app, Inv.
    + exact Inv.
    + exact Inv.
Qed.

Lemma deliver_guard sys i o now :
  guard_invariant sys -> guard_invariant (deliver sys i o now).1.
Proof.
  unfold guard_invariant, deliver. destruct sys as [tm l]. simpl.
  intros Inv. destruct (l !! i) as [[|p]|] eqn:L; [| |exact Inv].
  - pose proof (initialize_resume_guard o now tm) as G.
    destruct ((c <- initializeTokenFromCredentials_resume o now ;;
               initial_generation_settled c) tm) as [[u tm'] es].
    simpl. now rewrite G, rotations_delete_initializing.
  - pose proof (rotations_delete_rotating l i p L) as D.
    assert (R : isRotating tm = true).
    { destruct (isRotating tm); [reflexivity | lia]. }
    rewrite R in Inv.
    pose proof (rotateToken_resume_guard p o now tm) as G.
    destruct (rotateToken_resume p o now tm) as [[s tm'] es].
    destruct G as [G _]. rewrite R in G.
    destruct s as [p'|[[]|e]]; simpl in *; rewrite G.
    + now rewrite (rotations_insert_rotating l i p p' L).
    + lia.
    + lia.
Qed.

Lemma step_guard sys inp : guard_invariant sys -> guard_invariant (step sys inp).1.
Proof.
  destruct inp; simpl;
    [apply call_rotateToken_guard | apply call_rotateToken_guard | apply deliver_guard].
Qed.

Lemma run_invariant (P : system -> Prop) :
  (forall sys inp, P sys -> P (step sys inp).1) ->
  forall inps sys, P sys -> P (run sys inps).1.
Proof.
  intros Hstep. induction inps as [|inp rest IH]; intros sys H; simpl; [exact H|].
  specialize (Hstep sys inp H). destruct (step sys inp) as [sys1 es1].
  specialize (IH sys1 Hstep). now destruct (run sys1 rest) as [sys2 es2].
Qed.

Lemma process_invariant (P : system -> Prop) :
  (forall env now, P (constructor env now).1) ->
  (forall sys inp, P sys -> P (step sys inp).1) ->
  forall env now inps, P (process env now inps).1.
Proof.
  intros Hinit Hstep env now inps. unfold process.
  specialize (Hinit env now). destruct (constructor env now) as [sys0 es0].
  pose proof (run_invariant P Hstep inps sys0 Hinit) as H.
  now destruct (run sys0 inps) as [sys es].
Qed.


(** ** One attempt on its own *)

Lemma deliver_last tm l p o now :
  deliver (mkSystem tm (l ++ [Rotating p])) (length l) o now
  = let '(s, tm', es) := rotateToken_resume p o now tm in
    (mkSystem tm' (l ++ tasks_of s), es).
Proof.
  unfold deliver. simpl. rewrite list_lookup_middle by reflexivity.
  pose proof (rotateToken_resume_guard p o now tm) as G.
  destruct (rotateToken_resume p o now tm) as [[s tm'] es].
  destruct G as [_ G].
  destruct s as [p'|[[]|e]]; simpl.
  - now rewrite insert_app_r_alt, Nat.sub_diag by lia.
  - now rewrite delete_middle, app_nil_r.
  - now destruct (G e).
Qed.

Lemma deliver_none tm l o now :
  deliver (mkSystem tm l) (length l) o now = (mkSystem tm l, []).
Proof.
  unfold deliver. simpl. now rewrite lookup_ge_None_2 by lia.
Qed.

Lemma run_drive answers : forall s tm l,
  run (mkSystem tm (l ++ tasks_of s))
      (map (fun a => Response (length l) a.1 a.2) answers)
  = let '(s', tm', es) := drive s tm answers in
    (mkSystem tm' (l ++ tasks_of s'), es).
Proof.
  induction answers as [|a rest IH]; intros s tm l.
  - destruct s; reflexivity.
  - destruct s as [p|c]; simpl.
    + rewrite deliver_last.
      destruct (rotateToken_resume p a.1 a.2 tm) as [[s1 tm1] es1].
      rewrite IH. now destruct (drive s1 tm1 rest) as [[s2 tm2] es2].
    + rewrite app_nil_r, deliver_none.
      specialize (IH (Settled c) tm l). simpl in IH. rewrite app_nil_r in IH.
      rewrite IH. destruct rest; simpl; now rewrite ?app_nil_r.
Qed.

Lemma attempt_drive tm l answers :
  attempt (mkSystem tm l) answers
  = let '(s0, tm0, es0) := rotateToken tm in
    let '(s1, tm1, es1) := drive s0 tm0 answers in
    (mkSystem tm1 (l ++ tasks_of s1), es0 ++ es1).
Proof.
  unfold attempt. simpl. unfold call_rotateToken. simpl.
  destruct (isRotating tm) eqn:R.
  - rewrite (rotateToken_busy tm R).
    pose proof (run_drive answers (Settled (Normal tt)) tm l) as H.
    simpl in H. rewrite app_nil_r in H. rewrite H.
    destruct answers; simpl; now rewrite ?app_nil_r.
  - pose proof (rotateToken_idle tm R) as G.
    destruct (rotateToken tm) as [[s0 tm0] es0]. destruct G as [_ G].
    pose proof (run_drive answers s0 tm0 l) as H.
    destruct s0 as [p|[[]|e]]; simpl in *.
    + rewrite H. now destruct (drive (Pending p) tm0 answers) as [[s1 tm1] es1].
    + rewrite app_nil_r in H. rewrite H.
      destruct answers; simpl; now rewrite ?app_nil_r.
    + now destruct (G e).
Qed.

(** ** C1: the entry guard *)

(** C1.  A call of [rotateToken] or [manualRotate] that finds [isRotating]
    set returns at once: the object is unchanged and nothing is logged or
    sent.  A call that finds it clear sets it first, and every piece of the
    attempt, whatever the awaited call returned or threw, leaves it set
    while the attempt is suspended and clear once the attempt has settled.
    Hence, at every point of every run of the process, the flag is set
    exactly when one [rotateToken] is in flight, there is never more than
    one, and a timer tick or manual trigger met by a set flag changes
    nothing. *)
Theorem rotation_guard :
  (forall tm, isRotating tm = true ->
     rotateToken tm = (Settled (Normal tt), tm, [])
     /\ manualRotate tm = (Settled (Normal tt), tm, []))
  /\ (forall tm, isRotating tm = false ->
        let '(s, tm', es) := rotateToken tm in
        isRotating tm' = is_pending s
        /\ exists es', es = SetIsRotating true :: es')
  /\ (forall r now tm, isRotating tm = true ->
        let '(s, tm', _) := try_catch_finally (rotateToken_after r now) tm in
        isRotating tm' = is_pending s)
  /\ (forall env now inps,
        let sys := (process env now inps).1 in
        rotations (inflight sys)
        = (if isRotating (manager sys) then 1%nat else 0%nat)
        /\ (isRotating (manager sys) = true ->
            step sys TimerTick = (sys, []) /\ step sys ManualRotate = (sys, []))).
Proof.
  repeat split.
  - now apply rotateToken_busy.
  - now apply rotateToken_busy.
  - intros tm R. pose proof (rotateToken_idle tm R) as G.
    revert G. open_manager tm. simpl in R. subst rot.
    crunch; intros [G _]; (split; [exact G | eexists; reflexivity]).
  - intros r now tm R. pose proof (rotateToken_after_guard r now tm) as G.
    destruct (try_catch_finally (rotateToken_after r now) tm) as [[s tm'] es].
    destruct G as [G _]. now rewrite G, R.
  - apply (process_invariant guard_invariant constructor_guard step_guard).
  - simpl. unfold call_rotateToken. rewrite (rotateToken_busy _ H).
    now destruct ((process env now inps).1).
  - simpl. unfold call_rotateToken. rewrite (rotateToken_busy _ H).
    now destruct ((process env now inps).1).
Qed.

Lemma rotation_guard_witness :
  let sys := (process static_tokens 0 [TimerTick]).1 in
  isRotating (manager sys) = true /\ step sys ManualRotate = (sys, []).
Proof.
  split; [reflexivity|].
  destruct rotation_guard as (_ & _ & _ & H).
  apply (H static_tokens 0 [TimerTick]). reflexivity.
Defined.

(** ** C5: a held token that validates *)

(** C5.  An attempt that finds a current token and gets a confirmation for
    it sends that one validation request and nothing else, assigns neither
    [currentToken] nor [lastRotation], and leaves the object as it found it.
    The same holds piecewise when other calls are in flight: the piece that
    receives the confirmation only clears the flag. *)
Theorem valid_token_is_kept :
  (forall tm l o now,
     isRotating tm = false ->
     truthy (currentToken tm) = true ->
     validates o = true ->
     attempt (mkSystem tm l) [(o, now)]
     = (mkSystem tm l,
        [SetIsRotating true;
         Request (validateToken_request (currentToken tm));
         SetIsRotating false]))
  /\ (forall tm l i token o now,
        l !! i = Some (Rotating (AtValidateCurrent token)) ->
        validates o = true ->
        deliver (mkSystem tm l) i o now
        = (mkSystem (with_isRotating false tm) (delete i l),
           [SetIsRotating false])).
Proof.
  split.
  - intros tm l o now R C V. rewrite attempt_drive.
    open_manager tm. destruct o as [[st tok]|e]; simpl in *; [|discriminate].
    subst rot. unfold drive. crunch; try congruence.
    now rewrite app_nil_r.
  - intros tm l i token o now L V. unfold deliver. simpl. rewrite L.
    open_manager tm. destruct o as [[st tok]|e]; simpl in *; [|discriminate].
    crunch; congruence.
Qed.

Lemma valid_token_is_kept_witness :
  attempt (constructor static_tokens 0).1
          [(Fulfilled (mkResponse 200 None), 7)]
  = ((constructor static_tokens 0).1,
     [SetIsRotating true;
      Request (validateToken_request (Some "tok-A"));
      SetIsRotating false]).
Proof.
  destruct valid_token_is_kept as [H _].
  apply (H (initial_manager static_tokens 0) [] (Fulfilled (mkResponse 200 None)) 7);
    reflexivity.
Defined.

Lemma issued_Some o tok :
  issued o = Some tok ->
  exists st, o = Fulfilled (mkResponse st tok) /\ (st =? 200) = true.
Proof.
  destruct o as [[st [|tk]]|e]; simpl; try discriminate.
  - destruct (st =? 200); discriminate.
  - destruct (st =? 200) eqn:E; [|discriminate].
    intros [= <-]. now exists st.
Qed.

Lemma issued_None o :
  issued o = None ->
  (exists e, o = Rejected e)
  \/ (exists st d, o = Fulfilled (mkHttpResponse st d) /\ (st =? 200) = false)
  \/ (exists st, o = Fulfilled (mkHttpResponse st NoBody)
                 /\ (st =? 200) = true).
Proof.
  destruct o as [[st d]|e]; simpl; [|eauto].
  destruct (st =? 200) eqn:E; [|right; left; eauto].
  destruct d; [right; right; eauto | discriminate].
Qed.

Lemma validates_true o :
  validates o = true ->
  exists st d, o = Fulfilled (mkHttpResponse st d) /\ (st =? 200) = true.
Proof. destruct o as [[st d]|e]; simpl; [eauto|discriminate]. Qed.

Lemma validates_false o :
  validates o = false ->
  (exists e, o = Rejected e)
  \/ (exists st d, o = Fulfilled (mkHttpResponse st d) /\ (st =? 200) = false).
Proof. destruct o as [[st d]|e]; simpl; eauto. Qed.

Ltac open_outcomes :=
  repeat match goal with
  | H : issued _ = Some _ |- _ =>
      apply issued_Some in H; destruct H as (? & -> & ?)
  | H : issued _ = None |- _ =>
      apply issued_None in H;
      destruct H as [(? & ->)|[(? & ? & -> & ?)|(? & -> & ?)]]
  | H : validates _ = true |- _ =>
      apply validates_true in H; destruct H as (? & ? & -> & ?)
  | H : validates _ = false |- _ =>
      apply validates_false in H; destruct H as [(? & ->)|(? & ? & -> & ?)]
  end.

(** ** C3: no token, credentials, generation succeeds *)

(** C3.  An attempt that finds no current token and both client
    credentials, and whose token exchange succeeds, stores the issued token
    in [currentToken], stamps [lastRotation] with the clock of that moment
    and settles: the exchange is its only request.  Piecewise, with other
    calls in flight, the piece that receives the issued token does the
    same.  With only the credentials configured and ["tok-NEW"] issued, one
    attempt after start-up ends with [currentToken = "tok-NEW"]. *)
Theorem generated_token_is_adopted :
  (forall tm l o now tok,
     isRotating tm = false ->
     truthy (currentToken tm) = false ->
     credentials_usable tm = true ->
     issued o = Some tok ->
     let '(sys', es) := attempt (mkSystem tm l) [(o, now)] in
     sys' = mkSystem (adopted tok now tm) l
     /\ network_calls es = [generateNewToken_request (clientCredentials tm)]
     /\ mutations es = [SetCurrentToken tok; SetLastRotation now])
  /\ (forall tm l i o now tok,
        l !! i = Some (Rotating AtGenerateNoToken) ->
        issued o = Some tok ->
        let '(sys', es) := deliver (mkSystem tm l) i o now in
        sys' = mkSystem (with_isRotating false (adopted tok now tm)) (delete i l)
        /\ network_calls es = []
        /\ mutations es = [SetCurrentToken tok; SetLastRotation now])
  /\ (forall t0 t1,
        let '(sys, es) :=
          attempt (constructor only_credentials t0).1
                  [(Fulfilled (mkResponse 200 (Some "tok-NEW")), t1)] in
        currentToken (manager sys) = Some "tok-NEW"
        /\ lastRotation (manager sys) = t1
        /\ isRotating (manager sys) = false).
Proof.
  repeat apply conj.
  - intros tm l o now tok R C U I. rewrite attempt_drive.
    open_outcomes. open_manager tm. simpl in *. subst rot.
    unfold drive. crunch; try discriminate.
    now rewrite app_nil_r.
  - intros tm l i o now tok L I. unfold deliver. simpl. rewrite L.
    open_outcomes. open_manager tm. crunch. now repeat split.
  - intros t0 t1. now vm_compute.
Qed.

Lemma generated_token_is_adopted_witness :
  (attempt (mkSystem (initial_manager only_credentials 0) [])
           [(Fulfilled (mkResponse 200 (Some "tok-NEW")), 5)]).1
  = mkSystem (adopted (Some "tok-NEW") 5 (initial_manager only_credentials 0)) [].
Proof.
  destruct generated_token_is_adopted as [H _].
  specialize (H (initial_manager only_credentials 0) []
                (Fulfilled (mkResponse 200 (Some "tok-NEW"))) 5 (Some "tok-NEW")
                eq_refl eq_refl eq_refl eq_refl).
  destruct (attempt _ _) as [sys' es]. exact (proj1 H).
Defined.

(** ** C2: the fallback to the other static token *)

(** C2.  Take an attempt that finds a current token, is told it is invalid,
    and cannot generate (credentials missing, or the exchange fails).  The
    attempt turns to the other static token, the secondary one if the
    current token is the primary one and the primary one otherwise.  It
    stores that token in [currentToken] and stamps [lastRotation] exactly
    when the token is set and is confirmed; otherwise the object is left as
    it was found.  Piecewise, with other calls in flight, the piece that
    receives the answer for the fallback token adopts it exactly when the
    answer confirms it.  In the scenario of the specification (primary
    ["tok-A"] rejected, secondary ["tok-B"] confirmed, no credentials) one
    attempt ends with [currentToken = "tok-B"] and a fresh stamp. *)
Theorem fallback_to_other_static_token :
  (forall tm l o_cur t_cur o_gen t_gen o_bk t_bk,
     isRotating tm = false ->
     truthy (currentToken tm) = true ->
     validates o_cur = false ->
     issued o_gen = None ->
     let gen := if credentials_usable tm then [(o_gen, t_gen)] else [] in
     let hit := truthy (other_token tm) && validates o_bk in
     let '(sys', es) :=
       attempt (mkSystem tm l) ((o_cur, t_cur) :: gen ++ [(o_bk, t_bk)]) in
     sys' = mkSystem (if hit then adopted (other_token tm) t_bk tm else tm) l
     /\ mutations es
        = (if hit
           then [SetCurrentToken (other_token tm); SetLastRotation t_bk]
           else [])
     /\ network_calls es
        = validateToken_request (currentToken tm)
          :: (if credentials_usable tm
              then [generateNewToken_request (clientCredentials tm)]
              else [])
          ++ (if truthy (other_token tm)
              then [validateToken_request (other_token tm)]
              else []))
  /\ (forall tm l i newToken o now,
        l !! i = Some (Rotating (AtValidateBackup newToken)) ->
        let '(sys', es) := deliver (mkSystem tm l) i o now in
        sys' = mkSystem (with_isRotating false
                           (if validates o then adopted newToken now tm else tm))
                        (delete i l)
        /\ mutations es
           = (if validates o
              then [SetCurrentToken newToken; SetLastRotation now]
              else []))
  /\ (forall t0 t1 t2 oA oB,
        validates oA = false ->
        validates oB = true ->
        let '(sys, es) :=
          attempt (constructor static_tokens t0).1 [(oA, t1); (oB, t2)] in
        currentToken (manager sys) = Some "tok-B"
        /\ lastRotation (manager sys) = t2
        /\ network_calls es = [validateToken_request (Some "tok-A");
                               validateToken_request (Some "tok-B")]
        /\ mutations es = [SetCurrentToken (Some "tok-B"); SetLastRotation t2]).
Proof.
  repeat apply conj.
  - intros tm l o_cur t_cur o_gen t_gen o_bk t_bk R C V I. cbv zeta.
    rewrite attempt_drive.
    open_outcomes; destruct o_bk as [[s_bk k_bk]|e_bk];
      open_manager tm; simpl in *; subst rot; unfold drive;
      crunch; try discriminate; now rewrite ?app_nil_r.
  - intros tm l i newToken o now L. unfold deliver. simpl. rewrite L.
    destruct o as [[st tk]|e]; open_manager tm; crunch; now repeat split.
  - intros t0 t1 t2 oA oB VA VB.
    change (constructor static_tokens t0).1
      with (mkSystem (initial_manager static_tokens t0) []).
    rewrite attempt_drive.
    open_outcomes; unfold drive; crunch; try discriminate; now repeat split.
Qed.

Lemma fallback_to_other_static_token_witness :
  let '(sys, es) :=
    attempt (constructor static_tokens 0).1
            [(Rejected (mkError "Unauthorized" (Some 401) true), 3);
             (Fulfilled (mkResponse 200 None), 4)] in
  currentToken (manager sys) = Some "tok-B"
  /\ lastRotation (manager sys) = 4
  /\ network_calls es = [validateToken_request (Some "tok-A");
                         validateToken_request (Some "tok-B")]
  /\ mutations es = [SetCurrentToken (Some "tok-B"); SetLastRotation 4].
Proof.
  destruct fallback_to_other_static_token as (_ & _ & H).
  apply (H 0 3 4 (Rejected (mkError "Unauthorized" (Some 401) true))
           (Fulfilled (mkResponse 200 None))); reflexivity.
Defined.

(** ** C4: no token, no usable credentials *)

(** C4.  Take an attempt that finds no current token and cannot generate
    (credentials missing, or the exchange fails).  It asks for the primary
    token first, if one is set; only when there is none or it is not
    confirmed does it ask for the secondary token, if one is set.  The
    first token confirmed is stored in [currentToken] and [lastRotation]
    takes the clock of that answer; when none is confirmed the object is
    left as it was found and nothing is assigned.  The three pieces behave
    the same with other calls in flight. *)
Theorem static_tokens_probed_in_order :
  (forall tm l o_gen t_gen o_p t_p o_s t_s,
     isRotating tm = false ->
     truthy (currentToken tm) = false ->
     issued o_gen = None ->
     let P := primary (tokens tm) in
     let S := secondary (tokens tm) in
     let gen := if credentials_usable tm then [(o_gen, t_gen)] else [] in
     let first := truthy P && validates o_p in
     let second := truthy S && validates o_s in
     let '(sys', es) :=
       attempt (mkSystem tm l)
               (gen ++ (if truthy P then [(o_p, t_p)] else []) ++ [(o_s, t_s)]) in
     sys' = mkSystem (if first then adopted P t_p tm
                      else if second then adopted S t_s tm
                      else tm) l
     /\ currentToken (manager sys')
        = (if first then P else if second then S else currentToken tm)
     /\ lastRotation (manager sys')
        = (if first then t_p else if second then t_s else lastRotation tm)
     /\ isRotating (manager sys') = false
     /\ mutations es
        = (if first then [SetCurrentToken P; SetLastRotation t_p]
           else if second then [SetCurrentToken S; SetLastRotation t_s]
           else [])
     /\ network_calls es
        = (if credentials_usable tm
           then [generateNewToken_request (clientCredentials tm)]
           else [])
          ++ (if truthy P then [validateToken_request P] else [])
          ++ (if first then []
              else if truthy S then [validateToken_request S] else []))
  /\ (forall tm l i o now,
        l !! i = Some (Rotating AtValidatePrimary) ->
        validates o = true ->
        let '(sys', es) := deliver (mkSystem tm l) i o now in
        sys' = mkSystem (with_isRotating false
                           (adopted (primary (tokens tm)) now tm))
                        (delete i l)
        /\ currentToken (manager sys') = primary (tokens tm)
        /\ lastRotation (manager sys') = now
        /\ network_calls es = [])
  /\ (forall tm l i o now,
        l !! i = Some (Rotating AtValidatePrimary) ->
        validates o = false ->
        let '(sys', es) := deliver (mkSystem tm l) i o now in
        mutations es = []
        /\ currentToken (manager sys') = currentToken tm
        /\ lastRotation (manager sys') = lastRotation tm
        /\ if truthy (secondary (tokens tm))
           then sys' = mkSystem tm (<[i := Rotating AtValidateSecondary]> l)
                /\ network_calls es
                   = [validateToken_request (secondary (tokens tm))]
           else sys' = mkSystem (with_isRotating false tm) (delete i l)
                /\ network_calls es = [])
  /\ (forall tm l i o now,
        l !! i = Some (Rotating AtValidateSecondary) ->
        let '(sys', es) := deliver (mkSystem tm l) i o now in
        sys' = mkSystem (with_isRotating false
                           (if validates o
                            then adopted (secondary (tokens tm)) now tm
                            else tm))
                        (delete i l)
        /\ currentToken (manager sys')
           = (if validates o then secondary (tokens tm) else currentToken tm)
        /\ lastRotation (manager sys')
           = (if validates o then now else lastRotation tm)
        /\ network_calls es = []
        /\ mutations es
           = (if validates o
              then [SetCurrentToken (secondary (tokens tm)); SetLastRotation now]
              else [])).
Proof.
  repeat apply conj.
  - intros tm l o_gen t_gen o_p t_p o_s t_s R C I. cbv zeta.
    rewrite attempt_drive.
    open_outcomes; destruct o_p as [[s_p k_p]|e_p], o_s as [[s_s k_s]|e_s];
      open_manager tm; simpl in *; subst rot; unfold drive;
      crunch; try discriminate; now rewrite ?app_nil_r.
  - intros tm l i o now L V. unfold deliver. simpl. rewrite L.
    open_outcomes. open_manager tm. crunch; now repeat split.
  - intros tm l i o now L V. unfold deliver. simpl. rewrite L.
    open_outcomes; open_manager tm; crunch; now repeat split.
  - intros tm l i o now L. unfold deliver. simpl. rewrite L.
    destruct o as [[st tk]|e]; open_manager tm; crunch; now repeat split.
Qed.

(** The exchange fails, the primary token is refused, the secondary token
    is confirmed: the requests go out in that order and the secondary
    token is adopted with the clock of its confirmation. *)
Lemma static_tokens_probed_in_order_witness :
  let '(sys', es) :=
    attempt (mkSystem token_lost [])
            [(unauthorized, 4); (unauthorized, 5); (confirmed, 6)] in
  currentToken (manager sys') = Some "tok-B"
  /\ lastRotation (manager sys') = 6
  /\ isRotating (manager sys') = false
  /\ mutations es = [SetCurrentToken (Some "tok-B"); SetLastRotation 6]
  /\ network_calls es
     = [generateNewToken_request (clientCredentials token_lost);
        validateToken_request (Some "tok-A");
        validateToken_request (Some "tok-B")].
Proof.
  destruct static_tokens_probed_in_order as (H & _).
  specialize (H token_lost [] unauthorized 4 unauthorized 5 confirmed 6
                eq_refl eq_refl eq_refl).
  cbv zeta in H. change (((if credentials_usable token_lost
                            then [(unauthorized, 4)] else [])
                           ++ (if truthy (primary (tokens token_lost))
                               then [(unauthorized, 5)] else [])
                           ++ [(confirmed, 6)]))
    with [(unauthorized, 4); (unauthorized, 5); (confirmed, 6)] in H.
  destruct (attempt _ _) as [sys' es].
  destruct H as (_ & Hc & Hl & Hr & Hm & Hn).
  repeat split; assumption.
Defined.

(** ** C10: the fallback asks for one static token only *)

(** C10.  In an attempt that finds a current token, is told it is invalid
    and cannot generate, the requests sent after the validation of the
    current token and the failed exchange are at most one validation: of
    the secondary token if the current token is the primary one, of the
    primary token otherwise, and none if that token is not set.  When the
    current token is not the primary one, the only static token asked for is
    the primary one, whatever the remote service would answer for the
    secondary one, and [currentToken] ends as the primary token or
    unchanged. *)
Theorem fallback_probes_one_static_token :
  (forall tm l o_cur t_cur o_gen t_gen o_bk t_bk,
     isRotating tm = false ->
     truthy (currentToken tm) = true ->
     validates o_cur = false ->
     issued o_gen = None ->
     let candidate := if strict_eq (currentToken tm) (primary (tokens tm))
                      then secondary (tokens tm)
                      else primary (tokens tm) in
     let gen := if credentials_usable tm then [(o_gen, t_gen)] else [] in
     let '(sys', es) :=
       attempt (mkSystem tm l) ((o_cur, t_cur) :: gen ++ [(o_bk, t_bk)]) in
     network_calls es
     = validateToken_request (currentToken tm)
       :: (if credentials_usable tm
           then [generateNewToken_request (clientCredentials tm)]
           else [])
       ++ (if truthy candidate then [validateToken_request candidate] else []))
  /\ (forall tm l o_cur t_cur o_gen t_gen o_bk t_bk,
        isRotating tm = false ->
        truthy (currentToken tm) = true ->
        strict_eq (currentToken tm) (primary (tokens tm)) = false ->
        validates o_cur = false ->
        issued o_gen = None ->
        let gen := if credentials_usable tm then [(o_gen, t_gen)] else [] in
        let '(sys', es) :=
          attempt (mkSystem tm l) ((o_cur, t_cur) :: gen ++ [(o_bk, t_bk)]) in
        network_calls es
        = validateToken_request (currentToken tm)
          :: (if credentials_usable tm
              then [generateNewToken_request (clientCredentials tm)]
              else [])
          ++ (if truthy (primary (tokens tm))
              then [validateToken_request (primary (tokens tm))]
              else [])
        /\ (currentToken (manager sys') = primary (tokens tm)
            \/ currentToken (manager sys') = currentToken tm))
  /\ (forall o_cur t_cur o_gen t_gen o_bk t_bk,
        validates o_cur = false ->
        issued o_gen = None ->
        validates o_bk = false ->
        let '(sys', es) :=
          attempt (mkSystem generated_then_rejected [])
                  [(o_cur, t_cur); (o_gen, t_gen); (o_bk, t_bk)] in
        sys' = mkSystem generated_then_rejected []
        /\ network_calls es
           = [validateToken_request (Some "tok-G");
              generateNewToken_request (clientCredentials generated_then_rejected);
              validateToken_request (Some "tok-A")]).
Proof.
  repeat apply conj.
  - intros tm l o_cur t_cur o_gen t_gen o_bk t_bk R C V I. cbv zeta.
    rewrite attempt_drive.
    open_outcomes; destruct o_bk as [[s_bk k_bk]|e_bk];
      open_manager tm; simpl in *; subst rot; unfold drive;
      crunch; try discriminate; now rewrite ?app_nil_r.
  - intros tm l o_cur t_cur o_gen t_gen o_bk t_bk R C NE V I. cbv zeta.
    rewrite attempt_drive.
    open_outcomes; destruct o_bk as [[s_bk k_bk]|e_bk];
      open_manager tm; simpl in *; subst rot; unfold drive;
      crunch; try discriminate; rewrite ?app_nil_r; auto.
  - intros o_cur t_cur o_gen t_gen o_bk t_bk V1 I V2. rewrite attempt_drive.
    open_outcomes; unfold generated_then_rejected, drive;
      crunch; try discriminate; now rewrite ?app_nil_r.
Qed.

Lemma fallback_probes_one_static_token_witness :
  let '(sys', es) :=
    attempt (mkSystem generated_then_rejected [])
            [(Rejected (mkError "Unauthorized" (Some 401) true), 1);
             (Rejected (mkError "Unauthorized" (Some 401) true), 2);
             (Rejected (mkError "Unauthorized" (Some 401) true), 3)] in
  sys' = mkSystem generated_then_rejected []
  /\ network_calls es
     = [validateToken_request (Some "tok-G");
        generateNewToken_request (clientCredentials generated_then_rejected);
        validateToken_request (Some "tok-A")].
Proof.
  destruct fallback_probes_one_static_token as (_ & _ & H).
  apply (H (Rejected (mkError "Unauthorized" (Some 401) true)) 1
           (Rejected (mkError "Unauthorized" (Some 401) true)) 2
           (Rejected (mkError "Unauthorized" (Some 401) true)) 3); reflexivity.
Defined.

(** ** What one step does to the store *)

Lemma deliver_effect sys i o now t :
  inflight sys !! i = Some t ->
  let '(sys', es) := deliver sys i o now in
  same_config (manager sys) (manager sys')
  /\ (forall e, ~ In (UnhandledRejection e) es)
  /\ match establishes (manager sys) t o with
     | Some v =>
         currentToken (manager sys') = v
         /\ lastRotation (manager sys') = now
         /\ mutations es = [SetCurrentToken v; SetLastRotation now]
     | None =>
         currentToken (manager sys') = currentToken (manager sys)
         /\ lastRotation (manager sys') = lastRotation (manager sys)
         /\ mutations es = []
     end.
Proof.
  destruct sys as [tm l]. simpl. intros L. unfold deliver, same_config. simpl.
  rewrite L. open_manager tm.
  destruct t as [|[]], o as [[st tk]|e]; crunch.
  all: repeat split; try reflexivity; try discriminate.
  all: intros ? F; simpl in F; intuition discriminate.
Qed.

Lemma call_rotateToken_effect sys :
  let '(sys', es) := call_rotateToken sys in
  same_config (manager sys) (manager sys')
  /\ (forall e, ~ In (UnhandledRejection e) es)
  /\ currentToken (manager sys') = currentToken (manager sys)
  /\ lastRotation (manager sys') = lastRotation (manager sys)
  /\ mutations es = [].
Proof.
  destruct sys as [tm l]. unfold call_rotateToken, same_config. simpl.
  open_manager tm. crunch.
  all: repeat split; try reflexivity.
  all: intros ? F; simpl in F; intuition discriminate.
Qed.

Lemma deliver_nothing sys i o now :
  inflight sys !! i = None -> deliver sys i o now = (sys, []).
Proof. intros L. unfold deliver. now rewrite L. Qed.

Lemma step_effect sys inp :
  let '(sys', es) := step sys inp in
  same_config (manager sys) (manager sys')
  /\ (forall e, ~ In (UnhandledRejection e) es)
  /\ match established_by sys inp with
     | Some (v, now) =>
         currentToken (manager sys') = v
         /\ lastRotation (manager sys') = now
         /\ mutations es = [SetCurrentToken v; SetLastRotation now]
     | None =>
         currentToken (manager sys') = currentToken (manager sys)
         /\ lastRotation (manager sys') = lastRotation (manager sys)
         /\ mutations es = []
     end.
Proof.
  destruct inp as [| |i o now]; simpl.
  - pose proof (call_rotateToken_effect sys) as H.
    destruct (call_rotateToken sys) as [sys' es]. tauto.
  - pose proof (call_rotateToken_effect sys) as H.
    destruct (call_rotateToken sys) as [sys' es]. tauto.
  - destruct (inflight sys !! i) as [t|] eqn:L.
    + pose proof (deliver_effect sys i o now t L) as H.
      destruct (deliver sys i o now) as [sys' es].
      destruct (establishes (manager sys) t o); tauto.
    + rewrite (deliver_nothing sys i o now L). unfold same_config.
      repeat split; auto.
Qed.

Lemma mutations_app es1 es2 :
  mutations (es1 ++ es2) = mutations es1 ++ mutations es2.
Proof.
  induction es1 as [|e es1 IH]; simpl; [reflexivity|].
  destruct e; simpl; now rewrite ?IH.
Qed.

Lemma paired_app ms1 ms2 :
  paired ms1 = true -> paired ms2 = true -> paired (ms1 ++ ms2) = true.
Proof.
  revert ms1. fix IH 1. intros [|e [|e' ms1]] H1 H2; simpl in *.
  - exact H2.
  - destruct e; discriminate.
  - destruct e; try discriminate. destruct e'; try discriminate.
    now apply IH.
Qed.

Lemma step_paired sys inp : paired (mutations (step sys inp).2) = true.
Proof.
  pose proof (step_effect sys inp) as H.
  destruct (step sys inp) as [sys' es]. destruct H as (_ & _ & H). simpl.
  destruct (established_by sys inp) as [[v now]|];
    destruct H as (_ & _ & ->); reflexivity.
Qed.

Lemma run_paired inps : forall sys, paired (mutations (run sys inps).2) = true.
Proof.
  induction inps as [|inp rest IH]; intros sys; simpl; [reflexivity|].
  pose proof (step_paired sys inp) as H1.
  destruct (step sys inp) as [sys1 es1]. specialize (IH sys1).
  destruct (run sys1 rest) as [sys2 es2]. simpl in *.
  rewrite mutations_app. now apply paired_app.
Qed.

Lemma constructor_mutations env now : mutations (constructor env now).2 = [].
Proof.
  destruct env as [p s v ci cs].
  unfold constructor, constructor_body, initial_manager. crunch; reflexivity.
Qed.

(** Every pending validation of a static token is for a token that is
    set, at every point of every run. *)
Lemma pending_token_set_config tm tm' t :
  tokens tm' = tokens tm -> pending_token_set tm t -> pending_token_set tm' t.
Proof. intros E. destruct t as [|[]]; simpl; now rewrite ?E. Qed.

Lemma rotateToken_pending_token tm :
  let '(s, tm', _) := rotateToken tm in
  Forall (pending_token_set tm') (tasks_of s).
Proof.
  open_manager tm. crunch.
  all: repeat constructor; simpl; assumption.
Qed.

Lemma rotateToken_resume_pending_token p o now tm :
  let '(s, tm', _) := rotateToken_resume p o now tm in
  Forall (pending_token_set tm') (tasks_of s).
Proof.
  open_manager tm. destruct p, o as [[st tk]|[m [r|] q]]; crunch.
  all: repeat constructor; simpl; assumption.
Qed.

Lemma constructor_pending_tokens env now :
  pending_tokens_set (constructor env now).1.
Proof.
  destruct env as [p s v ci cs].
  unfold pending_tokens_set, constructor, constructor_body, initial_manager.
  crunch; repeat constructor.
Qed.

Lemma step_pending_tokens sys inp :
  pending_tokens_set sys -> pending_tokens_set (step sys inp).1.
Proof.
  unfold pending_tokens_set. intros Inv.
  pose proof (step_effect sys inp) as E.
  destruct sys as [tm l]. cbn [manager inflight] in *.
  assert (K : forall tm', tokens tm' = tokens tm ->
                          Forall (pending_token_set tm') l).
  { intros tm' C. eapply Forall_impl; [exact Inv|].
    intros t. now apply pending_token_set_config. }
  destruct inp as [| |i o now]; cbn [step] in *.
  1,2: unfold call_rotateToken in *; cbn [manager inflight] in *;
    pose proof (rotateToken_pending_token tm) as H;
    destruct (rotateToken tm) as [[[p|[[]|e]] tm'] es];
    destruct E as ((C & _) & _); cbn [fst manager inflight tasks_of] in *;
    try apply Forall_app; auto.
  unfold deliver in *. cbn [manager inflight] in *.
  destruct (l !! i) as [[|p]|] eqn:L; [| |exact Inv].
  - destruct ((c <- initializeTokenFromCredentials_resume o now ;;
               initial_generation_settled c) tm) as [[u tm'] es].
    destruct E as ((C & _) & _). cbn [fst manager inflight] in *.
    apply Forall_delete. auto.
  - pose proof (rotateToken_resume_pending_token p o now tm) as H.
    destruct (rotateToken_resume p o now tm) as [[[p'|[[]|e]] tm'] es];
      destruct E as ((C & _) & _); cbn [fst manager inflight tasks_of] in *.
    + apply Forall_insert; [auto|]. now inversion H.
    + apply Forall_delete. auto.
    + apply Forall_delete. auto.
Qed.

(** ** C7: when the rotation stamp moves *)

Lemma established_truthy sys inp v now :
  pending_tokens_set sys ->
  established_by sys inp = Some (v, now) ->
  exchange_truthy sys inp = true ->
  truthy v = true.
Proof.
  unfold pending_tokens_set. intros Inv E T.
  destruct inp as [| |i o t]; simpl in E, T; try discriminate.
  destruct (inflight sys !! i) as [tk|] eqn:L; [|discriminate].
  pose proof (Forall_lookup_1 _ _ _ _ Inv L) as Pt.
  destruct (establishes (manager sys) tk o) as [w|] eqn:Es; [|discriminate].
  injection E as <- <-.
  destruct tk as [|[]]; simpl in Es, Pt, T.
  all: try (rewrite Es in T; exact T).
  all: try discriminate.
  all: destruct (validates o); [|discriminate]; now injection Es as <-.
Qed.

(** C7, as worded, fails.  The start-up generation, which is no call of
    [rotateToken], stamps [lastRotation] when its exchange succeeds.  And a
    rotation attempt whose exchange is answered 200 by a body without
    [accessToken] stamps [lastRotation] while it replaces the token held by
    [undefined]. *)
Lemma stamp_without_confirming_rotation :
  (let sys := (process only_credentials 0 []).1 in
   let inp := Response 0 (Fulfilled (mkResponse 200 (Some "tok-0"))) 7 in
   inflight sys = [Initializing]
   /\ isRotating (manager sys) = false
   /\ lastRotation (manager sys) = 0
   /\ lastRotation (manager (step sys inp).1) = 7
   /\ ~ stamp_by_confirming_rotation sys inp)
  /\ (let sys := (process fully_configured 0
                          [ManualRotate; Response 0 unauthorized 1]).1 in
      let inp := Response 0 (Fulfilled (mkResponse 200 None)) 102 in
      inflight sys = [Rotating AtGenerateInvalid]
      /\ currentToken (manager sys) = Some "tok-A"
      /\ lastRotation (manager sys) = 0
      /\ currentToken (manager (step sys inp).1) = None
      /\ lastRotation (manager (step sys inp).1) = 102
      /\ ~ stamp_by_confirming_rotation sys inp).
Proof.
  split; cbv zeta; repeat split; try reflexivity.
  - intros H. destruct H as [(i & o & now & p & E & L) _]; [vm_compute; discriminate|].
    injection E as <- _ _. vm_compute in L. discriminate.
  - intros H. destruct H as [_ T]; [vm_compute; discriminate|].
    vm_compute in T. discriminate.
Qed.

(** C7, amended.  Once the constructor has initialised it, [lastRotation]
    is assigned only in a step that handles the successful answer to a
    token exchange, made by a rotation attempt or by the start-up
    generation the constructor launches outside [rotateToken], or the
    confirmation of a fallback or probed static token in a rotation
    attempt.  That step assigns [currentToken] the issued or confirmed
    token just before, the stamp is the clock of that step, and on every
    run the token is a set one whenever the exchange carried a non-empty
    [accessToken].  Every other step leaves both fields alone: a trigger,
    an answer for a call that is not in flight, a confirmation or
    rejection of the token already held, a failed generation, a rejected
    static token.  Over a whole run the assignments to the two fields
    therefore come in pairs, a token followed by its stamp. *)
Theorem stamp_only_with_new_token :
  (forall sys inp,
     let '(sys', es) := step sys inp in
     match established_by sys inp with
     | Some (v, now) =>
         currentToken (manager sys') = v
         /\ lastRotation (manager sys') = now
         /\ mutations es = [SetCurrentToken v; SetLastRotation now]
     | None =>
         currentToken (manager sys') = currentToken (manager sys)
         /\ lastRotation (manager sys') = lastRotation (manager sys)
         /\ mutations es = []
     end)
  /\ (forall sys i token o now,
        inflight sys !! i = Some (Rotating (AtValidateCurrent token)) ->
        established_by sys (Response i o now) = None)
  /\ (forall sys i o now,
        validates o = false ->
        established_by sys (Response i o now) = None)
  /\ (forall env now inps,
        paired (mutations (process env now inps).2) = true)
  /\ (forall sys inp v now,
        established_by sys inp = Some (v, now) ->
        exists i o t,
          inp = Response i o now
          /\ inflight sys !! i = Some t
          /\ ((is_exchange t = true /\ issued o = Some v)
              \/ (exists p, t = Rotating p
                            /\ is_exchange t = false
                            /\ validates o = true
                            /\ (p = AtValidateBackup v
                                \/ (p = AtValidatePrimary
                                    /\ v = primary (tokens (manager sys)))
                                \/ (p = AtValidateSecondary
                                    /\ v = secondary (tokens (manager sys)))))))
  /\ (forall env now inps inp v t,
        let sys := (process env now inps).1 in
        established_by sys inp = Some (v, t) ->
        exchange_truthy sys inp = true ->
        truthy v = true).
Proof.
  repeat apply conj.
  - intros sys inp. pose proof (step_effect sys inp) as H.
    destruct (step sys inp) as [sys' es]. tauto.
  - intros sys i token o now L. simpl. now rewrite L.
  - intros sys i o now V. simpl.
    destruct (inflight sys !! i) as [[|[]]|]; simpl; try reflexivity;
      rewrite ?V; try reflexivity.
    all: destruct o as [[st tk]|e]; simpl in *; now rewrite ?V.
  - intros env now inps. unfold process.
    pose proof (constructor_mutations env now) as H0.
    destruct (constructor env now) as [sys0 es0].
    pose proof (run_paired inps sys0) as H.
    destruct (run sys0 inps) as [sys es]. simpl in *.
    now rewrite mutations_app, H0.
  - intros sys inp v now E.
    destruct inp as [| |i o t]; simpl in E; try discriminate.
    destruct (inflight sys !! i) as [tk|] eqn:L; [|discriminate].
    destruct (establishes (manager sys) tk o) as [w|] eqn:Es; [|discriminate].
    injection E as <- <-. exists i, o, tk.
    split; [reflexivity|]. split; [exact L|]. clear L.
    destruct tk as [|[]]; simpl in Es; try discriminate.
    all: try (left; split; [reflexivity|exact Es]).
    all: right; eexists; split; [reflexivity|];
      destruct (validates o); [|discriminate]; injection Es as <-;
      repeat split; auto.
  - intros env now inps inp v t sys E T.
    apply (established_truthy sys inp v t); [|exact E|exact T].
    apply (process_invariant pending_tokens_set);
      [exact constructor_pending_tokens | exact step_pending_tokens].
Qed.

Lemma stamp_only_with_new_token_witness :
  established_by (process static_tokens 0 [TimerTick]).1
                 (Response 0%nat (Fulfilled (mkResponse 200 None)) 9)
  = None.
Proof.
  destruct stamp_only_with_new_token as (_ & H & _).
  apply (H (process static_tokens 0 [TimerTick]).1 0%nat (Some "tok-A")).
  reflexivity.
Defined.

(** ** C6: nothing validates *)

Lemma fruitless_establishes_nothing sys inp :
  fruitless_input sys inp = true -> established_by sys inp = None.
Proof.
  destruct inp as [| |i o now]; simpl; try reflexivity.
  destruct (inflight sys !! i) as [[|[]]|]; simpl; try reflexivity.
  all: destruct o as [[st tk]|e]; simpl; try reflexivity.
  all: now destruct (st =? 200).
Qed.

Lemma run_fruitless inps : forall sys,
  fruitless sys inps = true ->
  let '(sys', es) := run sys inps in
  currentToken (manager sys') = currentToken (manager sys)
  /\ lastRotation (manager sys') = lastRotation (manager sys)
  /\ mutations es = [].
Proof.
  induction inps as [|inp rest IH]; intros sys F; simpl in *; [auto|].
  apply andb_prop in F. destruct F as [F1 F2].
  pose proof (step_effect sys inp) as H.
  rewrite (fruitless_establishes_nothing sys inp F1) in H.
  destruct (step sys inp) as [sys1 es1]. simpl in F2.
  specialize (IH sys1 F2). destruct (run sys1 rest) as [sys2 es2].
  destruct H as (_ & _ & Hc & Hl & Hm). destruct IH as (IHc & IHl & IHm).
  rewrite mutations_app, Hm, IHm. repeat split; congruence.
Qed.

Lemma run_no_rejection inps : forall sys e,
  ~ In (UnhandledRejection e) (run sys inps).2.
Proof.
  induction inps as [|inp rest IH]; intros sys e; simpl; [tauto|].
  pose proof (step_effect sys inp) as H.
  destruct (step sys inp) as [sys1 es1]. specialize (IH sys1 e).
  destruct (run sys1 rest) as [sys2 es2]. simpl in *.
  destruct H as (_ & H & _). rewrite in_app_iff. specialize (H e). tauto.
Qed.

Lemma rotateToken_calls_left tm :
  (calls_left (rotateToken tm).1.1 <= 4)%nat.
Proof. open_manager tm. crunch; lia. Qed.

Lemma rotateToken_resume_calls_left p o now tm :
  (calls_left (rotateToken_resume p o now tm).1.1 < calls_left (Pending p))%nat.
Proof. open_manager tm. destruct p, o as [[st tk]|e]; crunch; lia. Qed.

Lemma drive_settles answers : forall s tm,
  (calls_left s <= length answers)%nat ->
  let '(s', tm', _) := drive s tm answers in
  exists c, s' = Settled c.
Proof.
  induction answers as [|a rest IH]; intros s tm Hn.
  - destruct s as [p|c]; [destruct p; simpl in Hn; lia | simpl; eauto].
  - destruct s as [p|c]; [|simpl; eauto].
    pose proof (rotateToken_resume_calls_left p a.1 a.2 tm) as Hlt.
    cbn [drive].
    destruct (rotateToken_resume p a.1 a.2 tm) as [[s1 tm1] es1].
    cbn [fst] in Hlt. cbn [length] in Hn.
    assert (Hle : (calls_left s1 <= length rest)%nat) by lia.
    specialize (IH s1 tm1 Hle).
    now destruct (drive s1 tm1 rest) as [[s2 tm2] es2].
Qed.

Lemma drive_guard answers : forall s tm,
  let '(s', tm', _) := drive s tm answers in
  (is_pending s = true -> isRotating tm' = isRotating tm && is_pending s')
  /\ (is_pending s = false -> s' = s /\ tm' = tm).
Proof.
  induction answers as [|a rest IH]; intros s tm; simpl.
  - destruct s; simpl; split; auto; try discriminate.
    intros _. now rewrite andb_true_r.
  - destruct s as [p|c]; simpl; [|split; [discriminate|auto]].
    pose proof (rotateToken_resume_guard p a.1 a.2 tm) as G.
    destruct (rotateToken_resume p a.1 a.2 tm) as [[s1 tm1] es1].
    destruct G as [G _]. specialize (IH s1 tm1).
    destruct (drive s1 tm1 rest) as [[s2 tm2] es2].
    split; [intros _|discriminate].
    destruct IH as [IH1 IH2]. destruct (is_pending s1) eqn:P1.
    + rewrite (IH1 eq_refl), G. now rewrite andb_true_r.
    + destruct (IH2 eq_refl) as [-> ->]. now rewrite G, P1.
Qed.

(** An attempt settles within four answers and clears the flag. *)
Lemma attempt_settles tm l answers :
  isRotating tm = false ->
  (4 <= length answers)%nat ->
  let sys' := (attempt (mkSystem tm l) answers).1 in
  inflight sys' = l /\ isRotating (manager sys') = false.
Proof.
  intros R Hn. rewrite attempt_drive.
  pose proof (rotateToken_idle tm R) as G.
  pose proof (rotateToken_calls_left tm) as C.
  destruct (rotateToken tm) as [[s0 tm0] es0]. destruct G as [G _].
  cbn [fst] in C.
  assert (Hle : (calls_left s0 <= length answers)%nat) by lia.
  pose proof (drive_settles answers s0 tm0 Hle) as D.
  pose proof (drive_guard answers s0 tm0) as D'.
  destruct (drive s0 tm0 answers) as [[s1 tm1] es1].
  destruct D as [c ->]. simpl. split; [now rewrite app_nil_r|].
  destruct D' as [D1 D2]. destruct (is_pending s0) eqn:P0.
  - rewrite (D1 eq_refl). simpl. now rewrite andb_false_r.
  - destruct (D2 eq_refl) as [_ ->]. exact G.
Qed.

Lemma getStatus_renderable tm :
  renderable tm -> exists report, getStatus tm = Normal report.
Proof.
  unfold renderable, clock_ok, getStatus, toISOString.
  intros [[H1 H2] ->].
  assert (B : - max_time <= lastRotation tm <= max_time
              /\ - max_time <= lastRotation tm + 9000000 <= max_time)
    by (unfold max_time in *; lia).
  destruct B as [[B1 B2] [B3 B4]].
  apply Z.leb_le in B1, B2, B3, B4. rewrite B1, B2, B3, B4. simpl. eauto.
Qed.

Lemma step_renderable sys inp :
  input_clock_ok inp ->
  renderable (manager sys) -> renderable (manager (step sys inp).1).
Proof.
  intros Hc [H1 H2]. pose proof (step_effect sys inp) as H.
  destruct (step sys inp) as [sys' es]. destruct H as ((_ & _ & Hi) & _ & H).
  unfold renderable. simpl. rewrite Hi. split; [|exact H2].
  destruct inp as [| |i o now]; simpl in *;
    try (destruct H as (_ & -> & _); exact H1).
  destruct (inflight sys !! i) as [t|];
    [destruct (establishes (manager sys) t o)|];
    destruct H as (_ & -> & _); assumption.
Qed.

Lemma run_renderable inps : forall sys,
  Forall input_clock_ok inps ->
  renderable (manager sys) -> renderable (manager (run sys inps).1).
Proof.
  induction inps as [|inp rest IH]; intros sys HF HR; simpl; [exact HR|].
  inversion HF as [|? ? Hinp Hrest]; subst.
  pose proof (step_renderable sys inp Hinp HR) as H1.
  destruct (step sys inp) as [sys1 es1]. specialize (IH sys1 Hrest H1).
  now destruct (run sys1 rest) as [sys2 es2].
Qed.

Lemma constructor_renderable env now :
  clock_ok now -> renderable (manager (constructor env now).1).
Proof.
  intros H. destruct env as [p s v ci cs].
  unfold constructor, constructor_body, initial_manager, renderable.
  crunch; now split.
Qed.

(** C6.  Along any run in which no generation succeeds and no fallback or
    probed static token is confirmed, whatever the answers about the token
    held, [currentToken] and [lastRotation] keep their values and are never
    assigned.  No call of [rotateToken] or [manualRotate] and no resumed
    piece ends by throwing, so no run ever has an unhandled rejection; an
    attempt settles, flag cleared, once at most four network calls have
    been answered.  [getCurrentToken] returns the stored value, and
    [getStatus] returns a report at every point of every run whose clock
    readings are times a [Date] can render together with the next
    rotation. *)
Theorem failures_are_contained :
  (forall sys inps,
     fruitless sys inps = true ->
     let '(sys', es) := run sys inps in
     currentToken (manager sys') = currentToken (manager sys)
     /\ lastRotation (manager sys') = lastRotation (manager sys)
     /\ mutations es = [])
  /\ (forall tm e,
        (rotateToken tm).1.1 <> Settled (Abrupt e)
        /\ (manualRotate tm).1.1 <> Settled (Abrupt e)
        /\ forall p o now,
             (rotateToken_resume p o now tm).1.1 <> Settled (Abrupt e))
  /\ (forall sys inps e, ~ In (UnhandledRejection e) (run sys inps).2)
  /\ (forall tm l answers,
        isRotating tm = false ->
        (4 <= length answers)%nat ->
        let sys' := (attempt (mkSystem tm l) answers).1 in
        inflight sys' = l /\ isRotating (manager sys') = false)
  /\ (forall env now inps,
        clock_ok now ->
        Forall input_clock_ok inps ->
        let tm := manager (process env now inps).1 in
        getCurrentToken tm = currentToken tm
        /\ exists report, getStatus tm = Normal report).
Proof.
  repeat apply conj.
  - exact (fun sys inps => run_fruitless inps sys).
  - intros tm e. unfold manualRotate.
    assert (H : (rotateToken tm).1.1 <> Settled (Abrupt e)).
    { destruct (isRotating tm) eqn:R.
      - now rewrite (rotateToken_busy tm R).
      - pose proof (rotateToken_idle tm R) as G.
        destruct (rotateToken tm) as [[s tm'] es]. apply G. }
    repeat split; try exact H.
    intros p o now. pose proof (rotateToken_resume_guard p o now tm) as G.
    destruct (rotateToken_resume p o now tm) as [[s tm'] es]. apply G.
  - exact (fun sys inps => run_no_rejection inps sys).
  - exact attempt_settles.
  - intros env now inps Hc HF. split; [reflexivity|].
    apply getStatus_renderable. unfold process.
    pose proof (constructor_renderable env now Hc) as H0.
    destruct (constructor env now) as [sys0 es0].
    pose proof (run_renderable inps sys0 HF H0) as H.
    now destruct (run sys0 inps) as [sys es].
Qed.

Lemma failures_are_contained_witness :
  let '(sys', es) :=
    run (constructor static_tokens 0).1
        [ManualRotate; Response 0 unauthorized 1; Response 0 unauthorized 2] in
  currentToken (manager sys') = Some "tok-A"
  /\ lastRotation (manager sys') = 0
  /\ mutations es = [].
Proof.
  destruct failures_are_contained as (H & _).
  apply (H (constructor static_tokens 0).1
           [ManualRotate; Response 0 unauthorized 1; Response 0 unauthorized 2]).
  reflexivity.
Defined.

(** ** C9: [validateToken] *)

(** C9.  [validateToken(token)] sends one request, a GET on
    [/v1/blueprints] bearing the token, with a 10 s timeout.  Whatever the
    outcome it returns a boolean and does not throw, touches nothing in the
    object, and the boolean is [true] exactly when the request was answered
    with status 200: a rejected request, whatever the error, and any other
    status give [false]. *)
Theorem validateToken_is_a_boolean_signal :
  forall token o tm,
    validateToken_begin token tm
    = (tt, tm,
       [Request {| method := GET;
                   path := "/v1/blueprints";
                   headers := [("Authorization", "Bearer " ++ template token)%string;
                               ("Content-Type", "application/json")];
                   timeout := 10000;
                   body := None |}])
    /\ exists b es,
         validateToken_end o tm = (Normal b, tm, es)
         /\ network_calls es = []
         /\ mutations es = []
         /\ (b = true <-> exists r, o = Fulfilled r /\ status r = 200)
         /\ (forall e, o = Rejected e -> b = false).
Proof.
  intros token o tm. split; [reflexivity|].
  destruct o as [r|e]; simpl.
  - exists (status r =? 200), []. unfold_monad. repeat split; try discriminate.
    + intros H. exists r. split; [reflexivity|]. now apply Z.eqb_eq.
    + intros (r' & [= <-] & H). now apply Z.eqb_eq.
  - exists false, [Console Error "Token validation failed:"].
    unfold_monad. repeat split; try discriminate.
    intros (r & H & _). discriminate.
Qed.

Lemma validateToken_is_a_boolean_signal_witness :
  exists b es,
    validateToken_end unauthorized (initial_manager static_tokens 0)
    = (Normal b, initial_manager static_tokens 0, es)
    /\ b = false.
Proof.
  destruct (validateToken_is_a_boolean_signal
              (Some "tok-A") unauthorized (initial_manager static_tokens 0))
    as (_ & b & es & H & _ & _ & _ & F).
  exists b, es. split; [exact H|]. now apply (F _ eq_refl).
Defined.

(** ** C8: where the current token comes from *)

Lemma process_fst env now inps :
  (process env now inps).1 = (run (constructor env now).1 inps).1.
Proof.
  unfold process. destruct (constructor env now) as [sys0 es0]. simpl.
  now destruct (run sys0 inps) as [sys es].
Qed.











(** * Further properties of the class *)

(** ** The configuration *)

Lemma run_same_config inps : forall sys,
  same_config (manager sys) (manager (run sys inps).1).
Proof.
  induction inps as [|inp rest IH]; intros sys; simpl.
  - unfold same_config. auto.
  - pose proof (step_effect sys inp) as H.
    destruct (step sys inp) as [sys1 es1]. destruct H as (H & _).
    specialize (IH sys1). destruct (run sys1 rest) as [sys2 es2]. simpl in *.
    unfold same_config in *. intuition congruence.
Qed.

Lemma constructor_config env now :
  tokens (manager (constructor env now).1) = configured_tokens env
  /\ clientCredentials (manager (constructor env now).1)
     = configured_credentials env
  /\ rotationInterval (manager (constructor env now).1) = 9000000.
Proof.
  destruct env as [p s v ci cs].
  unfold constructor, constructor_body, initial_manager. crunch; now repeat split.
Qed.

(** X1.  The configuration is read once: at every point of every run the
    three static tokens and the two client credentials are the values the
    constructor found in the environment, and the rotation interval is
    9 000 000 ms. *)
Theorem configuration_never_changes :
  forall env now inps,
    let tm := manager (process env now inps).1 in
    tokens tm = configured_tokens env
    /\ clientCredentials tm = configured_credentials env
    /\ rotationInterval tm = 9000000.
Proof.
  intros env now inps. cbv zeta. rewrite process_fst.
  destruct (constructor_config env now) as (T & C & I).
  destruct (run_same_config inps (constructor env now).1) as (T' & C' & I').
  repeat split; congruence.
Qed.

(** ** [generateNewToken] *)

(** X2.  [generateNewToken] refuses to run without a complete pair of
    credentials: it throws the configuration error and sends nothing.  With
    both set it sends one request, the POST of the pair to
    [/v1/auth/access_token] with a 10 s timeout.  When the request settles
    it returns a token exactly when the answer has status 200 and a body
    that can be destructured, and the token is the [accessToken] of that
    body; any other status, a 200 answer with a [null] body and a rejected
    request all make it throw, the last with the error of the request.  It
    never touches the object and sends nothing more. *)
Theorem generateNewToken_contract :
  forall tm o,
    (credentials_usable tm = false ->
     exists es,
       generateNewToken_begin tm = (Abrupt credentials_missing, tm, es)
       /\ network_calls es = [])
    /\ (credentials_usable tm = true ->
        exists es,
          generateNewToken_begin tm = (Normal tt, tm, es)
          /\ network_calls es
             = [{| method := POST;
                   path := "/v1/auth/access_token";
                   headers := [("Content-Type", "application/json")];
                   timeout := 10000;
                   body := Some (clientId (clientCredentials tm),
                                 clientSecret (clientCredentials tm)) |}])
    /\ exists c es,
         generateNewToken_end o tm = (c, tm, es)
         /\ network_calls es = []
         /\ mutations es = []
         /\ (forall token,
               c = Normal token
               <-> o = Fulfilled {| status := 200; data := Body token |})
         /\ (forall st, o = Fulfilled {| status := st; data := NoBody |} ->
                        exists e, c = Abrupt e)
         /\ (forall e, o = Rejected e -> c = Abrupt e).
Proof.
  intros tm o. repeat apply conj.
  - intros U. open_manager tm. crunch; try discriminate;
      eexists; split; reflexivity.
  - intros U. open_manager tm. crunch; try discriminate;
      eexists; split; reflexivity.
  - destruct o as [[st [|tk]]|[m [r|] q]]; crunch.
    all: do 2 eexists; split; [reflexivity|].
    all: repeat split; try reflexivity; try discriminate; eauto.
    all: try (intros [= <-]; apply Z.eqb_eq in Heqb; now subst).
    all: try (intros [= -> <-]; reflexivity).
    all: try (intros [= ->]; discriminate).
    all: intros ? [= <-]; reflexivity.
Qed.

Lemma generateNewToken_contract_witness :
  exists es,
    generateNewToken_begin (initial_manager static_tokens 0)
    = (Abrupt credentials_missing, initial_manager static_tokens 0, es)
    /\ network_calls es = [].
Proof.
  destruct (generateNewToken_contract (initial_manager static_tokens 0) confirmed)
    as (H & _).
  exact (H eq_refl).
Defined.

Lemma network_calls_app es1 es2 :
  network_calls (es1 ++ es2) = network_calls es1 ++ network_calls es2.
Proof.
  induction es1 as [|e es1 IH]; simpl; [reflexivity|].
  destruct e; simpl; now rewrite ?IH.
Qed.

(** ** The start-up generation *)

Lemma initializations_app l p :
  initializations (l ++ [Rotating p]) = initializations l.
Proof. induction l as [|[|q] l IH]; simpl; congruence. Qed.

Lemma initializations_delete l i :
  (initializations (delete i l) <= initializations l)%nat.
Proof.
  revert i; induction l as [|t l IH]; intros [|i]; simpl; try lia.
  - destruct t; lia.
  - specialize (IH i). destruct t; lia.
Qed.

Lemma initializations_insert l i p p' :
  l !! i = Some (Rotating p) ->
  initializations (<[i := Rotating p']> l) = initializations l.
Proof.
  revert i; induction l as [|t l IH]; intros [|i] H; simpl in *; try discriminate.
  - now inversion H.
  - destruct t; simpl; auto.
Qed.

Lemma step_initializations sys inp :
  (initializations (inflight (step sys inp).1)
   <= initializations (inflight sys))%nat.
Proof.
  destruct sys as [tm l]. destruct inp as [| |i o now]; simpl.
  1,2: unfold call_rotateToken; simpl;
    destruct (rotateToken tm) as [[[p|[[]|e]] tm'] es]; simpl;
    rewrite ?initializations_app; lia.
  unfold deliver. simpl. destruct (l !! i) as [[|p]|] eqn:L; simpl; [| |lia].
  - destruct ((c <- initializeTokenFromCredentials_resume o now ;;
               initial_generation_settled c) tm) as [[u tm'] es].
    simpl. apply initializations_delete.
  - destruct (rotateToken_resume p o now tm) as [[[p'|[[]|e]] tm'] es]; simpl.
    + rewrite (initializations_insert l i p p' L). lia.
    + apply initializations_delete.
    + apply initializations_delete.
Qed.

Lemma run_initializations inps : forall sys,
  (initializations (inflight (run sys inps).1)
   <= initializations (inflight sys))%nat.
Proof.
  induction inps as [|inp rest IH]; intros sys; simpl; [lia|].
  pose proof (step_initializations sys inp) as H.
  destruct (step sys inp) as [sys1 es1]. specialize (IH sys1).
  destruct (run sys1 rest) as [sys2 es2]. simpl in *. lia.
Qed.

(** X3.  The constructor stores the primary token as the current token
    without asking anybody, stamps the clock and leaves the flag clear.  It
    launches the start-up generation exactly when the primary token is
    missing and both client credentials are set; the exchange is then the
    only request it sends, and otherwise it sends none.  No later step
    launches another one: at every point of every run at most one start-up
    generation is in flight, and none if the constructor launched none. *)
Theorem start_up_generation_is_launched_once :
  (forall env now,
     let '(sys, es) := constructor env now in
     currentToken (manager sys) = PORT_API_TOKEN_PRIMARY env
     /\ lastRotation (manager sys) = now
     /\ isRotating (manager sys) = false
     /\ inflight sys = (if launches_start_up env then [Initializing] else [])
     /\ network_calls es
        = (if launches_start_up env
           then [generateNewToken_request (configured_credentials env)]
           else []))
  /\ (forall env now inps,
        (initializations (inflight (process env now inps).1)
         <= (if launches_start_up env then 1 else 0))%nat).
Proof.
  split.
  - intros [p s v ci cs] now.
    unfold constructor, constructor_body, initial_manager, launches_start_up,
      configured_credentials.
    crunch; try discriminate; now repeat split.
  - intros env now inps. rewrite process_fst.
    pose proof (run_initializations inps (constructor env now).1) as H.
    assert (H0 : initializations (inflight (constructor env now).1)
                 = if launches_start_up env then 1%nat else 0%nat).
    { destruct env as [p s v ci cs].
      unfold constructor, constructor_body, initial_manager, launches_start_up.
      crunch; try discriminate; reflexivity. }
    lia.
Qed.

(** X4.  The start-up generation is not under the reentrancy guard.  When
    its answer arrives, whatever the flag says and whatever else is in
    flight, a successful exchange overwrites [currentToken] with the issued
    token and stamps [lastRotation]; a failed one changes nothing, and its
    error is absorbed by the constructor's handler.  Either way the flag
    and the other calls in flight are left as they were, and nothing is
    sent. *)
Theorem start_up_generation_outcome :
  forall tm l i o now,
    l !! i = Some Initializing ->
    let '(sys', es) := deliver (mkSystem tm l) i o now in
    sys' = mkSystem (match issued o with
                     | Some token => adopted token now tm
                     | None => tm
                     end)
                    (delete i l)
    /\ currentToken (manager sys')
       = match issued o with
         | Some token => token
         | None => currentToken tm
         end
    /\ lastRotation (manager sys')
       = match issued o with
         | Some _ => now
         | None => lastRotation tm
         end
    /\ isRotating (manager sys') = isRotating tm
    /\ mutations es
       = match issued o with
         | Some token => [SetCurrentToken token; SetLastRotation now]
         | None => []
         end
    /\ network_calls es = []
    /\ forall e, ~ In (UnhandledRejection e) es.
Proof.
  intros tm l i o now L. unfold deliver. simpl. rewrite L.
  open_manager tm. destruct o as [[st tk]|[m [r|] q]]; crunch.
  all: repeat split; try reflexivity.
  all: intros ? F; simpl in F; intuition discriminate.
Qed.

Lemma start_up_generation_outcome_witness :
  (deliver (process only_credentials 0 [ManualRotate]).1 0
           (Fulfilled (mkResponse 200 (Some "tok-0"))) 8).1
  = mkSystem (adopted (Some "tok-0") 8
                (manager (process only_credentials 0 [ManualRotate]).1))
             [Rotating AtGenerateNoToken].
Proof.
  pose proof (start_up_generation_outcome
                (manager (process only_credentials 0 [ManualRotate]).1)
                [Initializing; Rotating AtGenerateNoToken] 0
                (Fulfilled (mkResponse 200 (Some "tok-0"))) 8 eq_refl) as H.
  exact (proj1 H).
Defined.

(** X5.  A trigger that arrives while the start-up generation is still
    waiting starts a second exchange: with no primary token and both
    credentials set, the process has two token requests in flight after
    one call of [manualRotate] (or one timer tick). *)
Theorem trigger_during_start_up_generates_twice :
  forall env now trigger,
    launches_start_up env = true ->
    trigger = ManualRotate \/ trigger = TimerTick ->
    let '(sys, es) := process env now [trigger] in
    inflight sys = [Initializing; Rotating AtGenerateNoToken]
    /\ isRotating (manager sys) = true
    /\ network_calls es
       = [generateNewToken_request (configured_credentials env);
          generateNewToken_request (configured_credentials env)].
Proof.
  intros [p s v ci cs] now trigger L [-> | ->].
  all: unfold process, constructor, constructor_body, initial_manager,
         launches_start_up, configured_credentials in *;
    simpl in *; unfold call_rotateToken; crunch; try discriminate;
    now repeat split.
Qed.

Lemma trigger_during_start_up_generates_twice_witness :
  let '(sys, es) := process only_credentials 0 [ManualRotate] in
  inflight sys = [Initializing; Rotating AtGenerateNoToken]
  /\ isRotating (manager sys) = true
  /\ network_calls es
     = [generateNewToken_request (configured_credentials only_credentials);
        generateNewToken_request (configured_credentials only_credentials)].
Proof.
  apply (trigger_during_start_up_generates_twice only_credentials 0 ManualRotate);
    [reflexivity | now left].
Defined.

(** ** Nothing configured *)

Lemma unconfigured_step env now inp :
  unconfigured env = true ->
  let '(sys', es) := step (mkSystem (initial_manager env now) []) inp in
  sys' = mkSystem (initial_manager env now) [] /\ network_calls es = [].
Proof.
  destruct env as [p s v ci cs]. unfold unconfigured, initial_manager.
  intros U. destruct inp as [| |i o t]; simpl in *.
  1,2: unfold call_rotateToken; crunch; try discriminate;
    try (destruct (truthy s); discriminate); now split.
  unfold deliver. simpl. now split.
Qed.

Lemma unconfigured_run env now inps :
  unconfigured env = true ->
  let '(sys', es) := run (mkSystem (initial_manager env now) []) inps in
  sys' = mkSystem (initial_manager env now) [] /\ network_calls es = [].
Proof.
  intros U. induction inps as [|inp rest IH]; simpl; [now split|].
  pose proof (unconfigured_step env now inp U) as H.
  destruct (step _ inp) as [sys1 es1]. destruct H as [-> H1].
  destruct (run _ rest) as [sys2 es2]. destruct IH as [-> H2].
  split; [reflexivity|]. now rewrite network_calls_app, H1, H2.
Qed.

(** X6.  With no primary token, no secondary token and no complete pair of
    credentials, the manager is inert: whatever triggers and answers
    arrive, it never sends a request, nothing is ever in flight, the
    object stays exactly as the constructor built it, and [getStatus]
    keeps reporting no current token and a clear flag. *)
Theorem unconfigured_manager_is_inert :
  forall env now inps,
    unconfigured env = true ->
    let '(sys, es) := process env now inps in
    sys = mkSystem (initial_manager env now) []
    /\ network_calls es = []
    /\ truthy (getCurrentToken (manager sys)) = false
    /\ forall report,
         getStatus (manager sys) = Normal report ->
         report_currentToken report = "Not Set"
         /\ report_isRotating report = false.
Proof.
  intros env now inps U.
  assert (H0 : constructor env now = (mkSystem (initial_manager env now) [],
                                      (constructor env now).2)
               /\ network_calls (constructor env now).2 = []).
  { destruct env as [p s v ci cs].
    unfold unconfigured, constructor, constructor_body, initial_manager in *.
    crunch; try discriminate; try (destruct (truthy s); discriminate);
      now split. }
  destruct H0 as [H0 N0]. unfold process. rewrite H0.
  pose proof (unconfigured_run env now inps U) as H.
  destruct (run _ inps) as [sys es]. destruct H as [-> N].
  assert (C : truthy (PORT_API_TOKEN_PRIMARY env) = false).
  { destruct env as [p s v ci cs]. unfold unconfigured in U. simpl in *.
    destruct (truthy p); [discriminate | reflexivity]. }
  repeat split.
  - now rewrite network_calls_app, N0, N.
  - exact C.
  - unfold getStatus in H. simpl in H.
    destruct (toISOString now); [|discriminate].
    destruct (toISOString (now + 9000000)); [|discriminate].
    injection H as <-. simpl. unfold presence. now rewrite C.
  - unfold getStatus in H. simpl in H.
    destruct (toISOString now); [|discriminate].
    destruct (toISOString (now + 9000000)); [|discriminate].
    now injection H as <-.
Qed.

Lemma unconfigured_manager_is_inert_witness :
  (process nothing_configured 0
           [TimerTick; ManualRotate; Response 0 confirmed 3; TimerTick]).1
  = mkSystem (initial_manager nothing_configured 0) [].
Proof.
  pose proof (unconfigured_manager_is_inert nothing_configured 0
                [TimerTick; ManualRotate; Response 0 confirmed 3; TimerTick]
                eq_refl) as H.
  destruct (process _ _ _) as [sys es]. exact (proj1 H).
Defined.

(** ** Requests and the calls that wait for them *)

Lemma rotateToken_requests tm :
  let '(s, _, es) := rotateToken tm in
  length (network_calls es) = if is_pending s then 1%nat else 0%nat.
Proof. open_manager tm. crunch; reflexivity. Qed.

Lemma rotateToken_resume_requests p o now tm :
  let '(s, _, es) := rotateToken_resume p o now tm in
  length (network_calls es) = if is_pending s then 1%nat else 0%nat.
Proof.
  open_manager tm. destruct p, o as [[st tk]|[m [r|] q]]; crunch; reflexivity.
Qed.

Lemma length_delete_lookup {A} (l : list A) i x :
  l !! i = Some x -> S (length (delete i l)) = length l.
Proof.
  revert i; induction l as [|y l IH]; intros [|i] H; simpl in *; try discriminate.
  - reflexivity.
  - now rewrite (IH i H).
Qed.

Lemma initialize_resume_requests o now tm :
  let '(_, _, es) :=
    (c <- initializeTokenFromCredentials_resume o now ;;
     initial_generation_settled c) tm in
  network_calls es = [].
Proof.
  open_manager tm. destruct o as [[st tk]|[m [r|] q]]; crunch; reflexivity.
Qed.

Lemma step_requests sys inp :
  let '(sys', es) := step sys inp in
  (length (network_calls es) + length (inflight sys)
   = answered sys [inp] + length (inflight sys'))%nat.
Proof.
  destruct sys as [tm l]. destruct inp as [| |i o now]; cbn [step answered].
  1,2: unfold call_rotateToken; cbn [manager inflight];
    pose proof (rotateToken_requests tm) as H;
    destruct (rotateToken tm) as [[[p|[[]|e]] tm'] es]; cbn [is_pending] in H;
    cbn [inflight]; rewrite ?network_calls_app; cbn [network_calls];
    rewrite ?length_app, ?H; cbn [length]; lia.
  unfold deliver. cbn [manager inflight fst].
  destruct (l !! i) as [[|p]|] eqn:L; cbn [inflight]; [| |simpl; lia].
  - pose proof (initialize_resume_requests o now tm) as H.
    pose proof (length_delete_lookup l i _ L) as D.
    destruct ((c <- initializeTokenFromCredentials_resume o now ;;
               initial_generation_settled c) tm) as [[u tm'] es].
    cbn [inflight]. rewrite H. simpl. lia.
  - pose proof (rotateToken_resume_requests p o now tm) as H.
    pose proof (length_delete_lookup l i _ L) as D.
    destruct (rotateToken_resume p o now tm) as [[[p'|[[]|e]] tm'] es];
      cbn [is_pending] in H; cbn [inflight];
      rewrite ?network_calls_app; cbn [network_calls];
      rewrite ?length_insert, ?length_app, ?H; cbn [length]; lia.
Qed.

Lemma answered_cons sys inp rest :
  answered sys (inp :: rest)
  = (answered sys [inp] + answered (step sys inp).1 rest)%nat.
Proof. simpl. lia. Qed.

Lemma run_requests inps : forall sys,
  let '(sys', es) := run sys inps in
  (length (network_calls es) + length (inflight sys)
   = answered sys inps + length (inflight sys'))%nat.
Proof.
  induction inps as [|inp rest IH]; intros sys; [simpl; lia|].
  rewrite answered_cons. cbn [run].
  pose proof (step_requests sys inp) as H1.
  destruct (step sys inp) as [sys1 es1]. specialize (IH sys1).
  destruct (run sys1 rest) as [sys2 es2]. cbn [fst].
  rewrite network_calls_app, length_app. lia.
Qed.

(** X7.  No request is sent and forgotten, and no call waits for nothing:
    at every point of every run, the number of requests sent so far is the
    number of answers that reached a call in flight plus the number of calls
    still in flight.  In particular a step sends at most one request, and
    it sends one exactly when the call it runs suspends again. *)
Theorem every_request_is_awaited :
  (forall env now inps,
     let '(sys, es) := process env now inps in
     length (network_calls es)
     = (answered (constructor env now).1 inps + length (inflight sys))%nat)
  /\ (forall tm,
        let '(s, _, es) := rotateToken tm in
        length (network_calls es) = if is_pending s then 1%nat else 0%nat)
  /\ (forall p o now tm,
        let '(s, _, es) := rotateToken_resume p o now tm in
        length (network_calls es) = if is_pending s then 1%nat else 0%nat).
Proof.
  repeat apply conj.
  - intros env now inps. unfold process.
    assert (H0 : length (network_calls (constructor env now).2)
                 = length (inflight (constructor env now).1)).
    { destruct env as [p s v ci cs].
      unfold constructor, constructor_body, initial_manager.
      crunch; reflexivity. }
    destruct (constructor env now) as [sys0 es0]. cbn [fst snd] in *.
    pose proof (run_requests inps sys0) as H.
    destruct (run sys0 inps) as [sys es].
    rewrite network_calls_app, length_app. lia.
  - exact rotateToken_requests.
  - exact rotateToken_resume_requests.
Qed.

(** ** The cost of one attempt *)

Lemma rotateToken_budget tm :
  isRotating tm = false ->
  let '(s, tm', _) := rotateToken tm in (budget tm' s <= 3)%nat.
Proof. open_manager tm. simpl. intros ->. crunch; lia. Qed.

Lemma rotateToken_resume_budget p o now tm :
  let '(s, tm', _) := rotateToken_resume p o now tm in
  (budget tm' s < budget tm (Pending p))%nat.
Proof.
  open_manager tm. destruct p, o as [[st tk]|[m [r|] q]]; crunch; lia.
Qed.

Lemma budget_pending tm s :
  ((if is_pending s then 1 else 0) <= budget tm s)%nat.
Proof. destruct s as [[]|]; simpl; try lia. destruct (truthy _); lia. Qed.

Lemma drive_budget answers : forall s tm,
  let '(s', _, es) := drive s tm answers in
  (length (network_calls es) + (if is_pending s then 1 else 0)
   <= budget tm s)%nat
  /\ ((budget tm s <= length answers)%nat -> is_pending s' = false).
Proof.
  induction answers as [|a rest IH]; intros s tm.
  - cbn [drive]. pose proof (budget_pending tm s) as B.
    destruct s as [p|c]; cbn [network_calls length is_pending] in *;
      split; try lia; auto.
  - destruct s as [p|c]; [|simpl; split; [lia|auto]].
    cbn [drive].
    pose proof (rotateToken_resume_budget p a.1 a.2 tm) as B.
    pose proof (rotateToken_resume_requests p a.1 a.2 tm) as Q.
    destruct (rotateToken_resume p a.1 a.2 tm) as [[s1 tm1] es1].
    specialize (IH s1 tm1). destruct (drive s1 tm1 rest) as [[s2 tm2] es2].
    destruct IH as [IH1 IH2].
    rewrite network_calls_app, length_app, Q. cbn [is_pending length].
    split; [lia|]. intros Hn. apply IH2. lia.
Qed.

(** X8.  A rotation attempt that runs on its own sends at most three
    requests, however the remote service answers, and has settled, flag
    clear, once three answers have arrived: with the 10 s timeout of each
    request the flag is held for at most 30 s of waiting. *)
Theorem attempt_sends_at_most_three_requests :
  forall tm l answers,
    isRotating tm = false ->
    let '(sys', es) := attempt (mkSystem tm l) answers in
    (length (network_calls es) <= 3)%nat
    /\ ((3 <= length answers)%nat ->
        inflight sys' = l /\ isRotating (manager sys') = false).
Proof.
  intros tm l answers R. rewrite attempt_drive.
  pose proof (rotateToken_budget tm R) as B.
  pose proof (rotateToken_requests tm) as Q.
  pose proof (rotateToken_idle tm R) as G.
  destruct (rotateToken tm) as [[s0 tm0] es0]. destruct G as [G _].
  pose proof (drive_budget answers s0 tm0) as D.
  pose proof (drive_guard answers s0 tm0) as D'.
  destruct (drive s0 tm0 answers) as [[s1 tm1] es1].
  destruct D as [D1 D2]. rewrite network_calls_app, length_app, Q.
  split; [lia|]. intros Hn.
  assert (P1 : is_pending s1 = false) by (apply D2; lia).
  cbn [inflight manager]. destruct s1 as [p|c]; [discriminate|].
  cbn [tasks_of]. rewrite app_nil_r. split; [reflexivity|].
  destruct D' as [Da Db]. destruct (is_pending s0) eqn:P0.
  - rewrite (Da eq_refl). cbn [is_pending]. now rewrite andb_false_r.
  - destruct (Db eq_refl) as [_ ->]. exact G.
Qed.

Lemma attempt_sends_at_most_three_requests_witness :
  let answers := [(unauthorized, 1); (unauthorized, 2); (unauthorized, 3)] in
  (length (network_calls
             (attempt (mkSystem generated_then_rejected []) answers).2)
   <= 3)%nat.
Proof.
  intros answers.
  pose proof (attempt_sends_at_most_three_requests generated_then_rejected []
                answers eq_refl) as H.
  destruct (attempt _ _) as [sys' es]. exact (proj1 H).
Defined.

(** ** Rotation by regeneration *)

(** X9.  Generation comes before the static tokens.  An attempt that is
    told its current token is invalid and has both credentials asks for a
    new token; if the exchange succeeds the issued token becomes the
    current token, the clock is stamped, and no static token is asked
    for, whatever the configured tokens are.  The piece that receives the
    issued token does the same with other calls in flight. *)
Theorem invalid_token_is_regenerated :
  (forall tm l o_cur t_cur o_gen t_gen token,
     isRotating tm = false ->
     truthy (currentToken tm) = true ->
     credentials_usable tm = true ->
     validates o_cur = false ->
     issued o_gen = Some token ->
     let '(sys', es) :=
       attempt (mkSystem tm l) [(o_cur, t_cur); (o_gen, t_gen)] in
     sys' = mkSystem (adopted token t_gen tm) l
     /\ currentToken (manager sys') = token
     /\ lastRotation (manager sys') = t_gen
     /\ isRotating (manager sys') = false
     /\ mutations es = [SetCurrentToken token; SetLastRotation t_gen]
     /\ network_calls es
        = [validateToken_request (currentToken tm);
           generateNewToken_request (clientCredentials tm)])
  /\ (forall tm l i o now token,
        l !! i = Some (Rotating AtGenerateInvalid) ->
        issued o = Some token ->
        let '(sys', es) := deliver (mkSystem tm l) i o now in
        sys' = mkSystem (with_isRotating false (adopted token now tm))
                        (delete i l)
        /\ currentToken (manager sys') = token
        /\ lastRotation (manager sys') = now
        /\ isRotating (manager sys') = false
        /\ network_calls es = []).
Proof.
  split.
  - intros tm l o_cur t_cur o_gen t_gen token R C U V I.
    rewrite attempt_drive.
    open_outcomes; open_manager tm; simpl in *; subst rot; unfold drive;
      crunch; try discriminate; now rewrite ?app_nil_r.
  - intros tm l i o now token L I. unfold deliver. simpl. rewrite L.
    open_outcomes. open_manager tm. crunch. now repeat split.
Qed.

Lemma invalid_token_is_regenerated_witness :
  (attempt (mkSystem generated_then_rejected [])
           [(unauthorized, 1);
            (Fulfilled (mkResponse 200 (Some "tok-H")), 2)]).1
  = mkSystem (adopted (Some "tok-H") 2 generated_then_rejected) [].
Proof.
  destruct invalid_token_is_regenerated as [H _].
  specialize (H generated_then_rejected [] unauthorized 1
                (Fulfilled (mkResponse 200 (Some "tok-H"))) 2 (Some "tok-H")
                eq_refl eq_refl eq_refl eq_refl eq_refl).
  destruct (attempt _ _) as [sys' es]. exact (proj1 H).
Defined.

(** ** Requests carry what is configured *)

Ltac sound_requests :=
  try exact I;
  repeat first
    [ apply List.Forall_nil
    | apply List.Forall_cons;
      [ first [ left; eexists; split; [ | reflexivity]; assumption
              | right; repeat split; first [assumption | reflexivity] ] | ] ].

Lemma rotateToken_sound_requests tm :
  let '(_, _, es) := rotateToken tm in
  Forall (sound_request (clientCredentials tm)) (network_calls es).
Proof.
  open_manager tm. unfold sound_request. crunch.
  all: sound_requests.
Qed.

Lemma rotateToken_resume_sound_requests p o now tm :
  let '(_, _, es) := rotateToken_resume p o now tm in
  Forall (sound_request (clientCredentials tm)) (network_calls es).
Proof.
  open_manager tm. unfold sound_request.
  destruct p, o as [[st tk]|[m [r|] q]]; crunch.
  all: sound_requests.
Qed.

Lemma step_sound_requests sys inp :
  Forall (sound_request (clientCredentials (manager sys)))
         (network_calls (step sys inp).2).
Proof.
  destruct sys as [tm l]. destruct inp as [| |i o now]; cbn [step manager].
  1,2: unfold call_rotateToken; cbn [manager inflight];
    pose proof (rotateToken_sound_requests tm) as H;
    destruct (rotateToken tm) as [[[p|[[]|e]] tm'] es]; cbn [snd];
    rewrite ?network_calls_app; cbn [network_calls]; rewrite ?app_nil_r;
    exact H.
  unfold deliver. cbn [manager inflight].
  destruct (l !! i) as [[|p]|] eqn:L; [| |constructor].
  - pose proof (initialize_resume_requests o now tm) as H.
    destruct ((c <- initializeTokenFromCredentials_resume o now ;;
               initial_generation_settled c) tm) as [[u tm'] es].
    cbn [snd]. rewrite H. constructor.
  - pose proof (rotateToken_resume_sound_requests p o now tm) as H.
    destruct (rotateToken_resume p o now tm) as [[[p'|[[]|e]] tm'] es];
      cbn [snd]; rewrite ?network_calls_app; cbn [network_calls];
      rewrite ?app_nil_r; exact H.
Qed.

Lemma run_sound_requests inps : forall sys,
  Forall (sound_request (clientCredentials (manager sys)))
         (network_calls (run sys inps).2).
Proof.
  induction inps as [|inp rest IH]; intros sys; simpl; [constructor|].
  pose proof (step_sound_requests sys inp) as H1.
  pose proof (step_effect sys inp) as E.
  destruct (step sys inp) as [sys1 es1]. destruct E as ((_ & C & _) & _).
  specialize (IH sys1). destruct (run sys1 rest) as [sys2 es2]. simpl in *.
  rewrite network_calls_app. apply Forall_app. split; [exact H1|].
  now rewrite <- C.
Qed.

(** X10.  The manager never sends an absent credential.  Every request of
    every run is either the validation of a token that is set, so that
    ["Bearer undefined"] or an empty bearer is never sent on behalf of a
    missing token, or the exchange of the configured pair of credentials
    with both of them set. *)
Theorem requests_carry_set_credentials :
  forall env now inps,
    Forall (sound_request (configured_credentials env))
           (network_calls (process env now inps).2).
Proof.
  intros env now inps. unfold process.
  pose proof (constructor_config env now) as (_ & C & _).
  assert (H0 : Forall (sound_request (configured_credentials env))
                      (network_calls (constructor env now).2)).
  { destruct env as [p s v ci cs].
    unfold constructor, constructor_body, initial_manager, sound_request,
      configured_credentials.
    crunch; sound_requests. }
  destruct (constructor env now) as [sys0 es0]. cbn [fst snd] in *.
  pose proof (run_sound_requests inps sys0) as H. rewrite C in H.
  destruct (run sys0 inps) as [sys es]. cbn [snd] in *.
  rewrite network_calls_app. apply Forall_app. now split.
Qed.

(** ** A token once held is not dropped *)

Lemma step_keeps_token sys inp :
  pending_tokens_set sys ->
  exchange_truthy sys inp = true ->
  truthy (currentToken (manager sys)) = true ->
  truthy (currentToken (manager (step sys inp).1)) = true.
Proof.
  intros Inv T C. pose proof (step_effect sys inp) as E.
  destruct (step sys inp) as [sys' es]. destruct E as (_ & _ & E). cbn [fst].
  destruct (established_by sys inp) as [[v now]|] eqn:Es.
  - destruct E as (-> & _). exact (established_truthy sys inp v now Inv Es T).
  - destruct E as (-> & _). exact C.
Qed.

Lemma run_keeps_token inps : forall sys,
  pending_tokens_set sys ->
  exchanges_truthy sys inps = true ->
  truthy (currentToken (manager sys)) = true ->
  truthy (currentToken (manager (run sys inps).1)) = true.
Proof.
  induction inps as [|inp rest IH]; intros sys Inv T C; simpl in *; [exact C|].
  apply andb_prop in T. destruct T as [T1 T2].
  pose proof (step_pending_tokens sys inp Inv) as Inv1.
  pose proof (step_keeps_token sys inp Inv T1 C) as C1.
  destruct (step sys inp) as [sys1 es1]. cbn [fst] in *.
  specialize (IH sys1 Inv1 T2 C1). now destruct (run sys1 rest) as [sys2 es2].
Qed.

Lemma run_app inps1 inps2 : forall sys,
  (run sys (inps1 ++ inps2)).1 = (run (run sys inps1).1 inps2).1.
Proof.
  induction inps1 as [|inp rest IH]; intros sys; simpl; [reflexivity|].
  destruct (step sys inp) as [sys1 es1]. specialize (IH sys1).
  destruct (run sys1 (rest ++ inps2)) as [sys2 es2].
  destruct (run sys1 rest) as [sys3 es3]. simpl in *. exact IH.
Qed.

(** X11.  A token once held is never dropped.  As long as every successful
    token exchange carries a non-empty [accessToken], whatever the answers
    to the validations are, a run that has a current token at some point
    has one at every later point; in particular a process started with a
    primary token always has a current token.  The token may be stale, but
    [getCurrentToken] does not go back to [undefined]. *)
Theorem current_token_is_never_dropped :
  forall env now inps later,
    exchanges_truthy (process env now inps).1 later = true ->
    truthy (getCurrentToken (manager (process env now inps).1)) = true ->
    truthy (getCurrentToken (manager (process env now (inps ++ later)).1))
    = true.
Proof.
  intros env now inps later T C. unfold getCurrentToken in *.
  rewrite process_fst in *. rewrite run_app.
  apply run_keeps_token; [|exact T|exact C].
  apply run_invariant; [exact step_pending_tokens|].
  apply constructor_pending_tokens.
Qed.

(** The held token is refused and a new one is issued; it is confirmed at
    the next attempt; later it is refused, the exchange fails and the
    primary token is confirmed instead. *)
Lemma current_token_is_never_dropped_witness :
  let later :=
    [ManualRotate; Response 0 unauthorized 1;
     Response 0 (Fulfilled (mkResponse 200 (Some "tok-N"))) 2;
     TimerTick; Response 0 confirmed 3;
     ManualRotate; Response 0 unauthorized 4; Response 0 unauthorized 5;
     Response 0 confirmed 6] in
  truthy (getCurrentToken
            (manager (process fully_configured 0 ([] ++ later)).1)) = true
  /\ getCurrentToken (manager (process fully_configured 0 later).1)
     = Some "tok-A"
  /\ isRotating (manager (process fully_configured 0 later).1) = false.
Proof.
  intros later. split; [|split; reflexivity].
  apply (current_token_is_never_dropped fully_configured 0 [] later);
    reflexivity.
Defined.

(** ** The status report *)

(** X12.  [getStatus] does not reveal a credential: it depends on the
    tokens and on the client credentials only through which of them are
    set.  Two managers with the same bookkeeping and the same credentials
    set give the same report, or fail alike. *)
Theorem getStatus_shows_presence_only :
  forall tm tm', same_presence tm tm' -> getStatus tm = getStatus tm'.
Proof.
  intros tm tm' (L & I & R & C & P & S & V & Ci & Cs).
  unfold getStatus, presence.
  now rewrite L, I, R, C, P, S, V, Ci, Cs.
Qed.

Lemma getStatus_shows_presence_only_witness :
  getStatus (initial_manager static_tokens 0)
  = getStatus (initial_manager
                 {| PORT_API_TOKEN_PRIMARY := Some "another-token";
                    PORT_API_TOKEN_SECONDARY := Some "yet-another";
                    PORT_SERVICE_TOKEN := None;
                    PORT_CLIENT_ID := Some "";
                    PORT_CLIENT_SECRET := None |} 0).
Proof.
  apply getStatus_shows_presence_only. unfold same_presence. simpl.
  repeat split; reflexivity.
Defined.

(** X13.  At every point of a run whose clock readings can be rendered,
    [getStatus] returns a report in which the flags of the three static
    tokens and of the two client credentials are those of the environment
    the process started with, [isRotating] is set exactly when a
    [rotateToken] is in flight, and the next rotation is announced
    9 000 000 ms after the last stamp. *)
Theorem getStatus_reports_the_process :
  forall env now inps,
    clock_ok now ->
    Forall input_clock_ok inps ->
    let sys := (process env now inps).1 in
    exists report,
      getStatus (manager sys) = Normal report
      /\ report_currentToken report = presence (currentToken (manager sys))
      /\ report_primaryToken report = presence (PORT_API_TOKEN_PRIMARY env)
      /\ report_secondaryToken report = presence (PORT_API_TOKEN_SECONDARY env)
      /\ report_serviceToken report = presence (PORT_SERVICE_TOKEN env)
      /\ report_clientId report = presence (PORT_CLIENT_ID env)
      /\ report_clientSecret report = presence (PORT_CLIENT_SECRET env)
      /\ report_lastRotation report = ISO (lastRotation (manager sys))
      /\ report_nextRotation report
         = ISO (lastRotation (manager sys) + 9000000)
      /\ report_isRotating report = Nat.eqb (rotations (inflight sys)) 1.
Proof.
  intros env now inps Hc HF. cbv zeta.
  pose proof (process_invariant guard_invariant constructor_guard step_guard
                env now inps) as G.
  assert (T : tokens (manager (process env now inps).1) = configured_tokens env
              /\ clientCredentials (manager (process env now inps).1)
                 = configured_credentials env
              /\ rotationInterval (manager (process env now inps).1) = 9000000).
  { rewrite process_fst.
    destruct (constructor_config env now) as (T & C & I).
    destruct (run_same_config inps (constructor env now).1) as (T' & C' & I').
    repeat split; congruence. }
  assert (R : renderable (manager (process env now inps).1)).
  { rewrite process_fst. apply run_renderable; [exact HF|].
    now apply constructor_renderable. }
  destruct T as (T & C & I). unfold guard_invariant in G.
  destruct (process env now inps).1 as [tm l]. cbn [manager inflight] in *.
  destruct R as [[R1 R2] _]. unfold getStatus, toISOString. rewrite I.
  assert (B : - max_time <= lastRotation tm <= max_time
              /\ - max_time <= lastRotation tm + 9000000 <= max_time)
    by (unfold max_time in *; lia).
  destruct B as [[B1 B2] [B3 B4]].
  apply Z.leb_le in B1, B2, B3, B4. rewrite B1, B2, B3, B4. cbn [andb].
  eexists. split; [reflexivity|]. cbn. rewrite T, C, G.
  repeat split. now destruct (isRotating tm).
Qed.

Lemma getStatus_reports_the_process_witness :
  exists report,
    getStatus (manager (process static_tokens 0 [TimerTick]).1) = Normal report
    /\ report_isRotating report = true.
Proof.
  destruct (getStatus_reports_the_process static_tokens 0 [TimerTick])
    as (report & H & _ & _ & _ & _ & _ & _ & _ & _ & R).
  - unfold clock_ok, max_time. lia.
  - repeat constructor.
  - exists report. split; [exact H|]. exact R.
Defined.

(** ** What an unsuccessful attempt says *)

(** X14.  An attempt does not end silently without a usable token.  A call
    of [rotateToken] that returns at once with the flag clear has found
    nothing to ask for and logs the warning of line 204.  A suspended call
    that settles has adopted a token, or has just had the token it holds
    confirmed, or logs one of the warnings of lines 190 and 204. *)
Theorem fruitless_attempt_warns :
  (forall tm,
     isRotating tm = false ->
     let '(s, _, es) := rotateToken tm in
     is_pending s = false ->
     In (Console Warn "No valid tokens available") es)
  /\ (forall p o now tm,
        let '(s, _, es) := rotateToken_resume p o now tm in
        is_pending s = false ->
        mutations es <> []
        \/ (exists token, p = AtValidateCurrent token /\ validates o = true)
        \/ In (Console Warn "All tokens appear to be invalid") es
        \/ In (Console Warn "No valid tokens available") es).
Proof.
  split.
  - intros tm R. open_manager tm. simpl in R. subst rot.
    crunch; intros P; try discriminate; simpl; tauto.
  - intros p o now tm. open_manager tm.
    destruct p, o as [[st tk]|[m [r|] q]]; crunch; intros P;
      try discriminate; simpl.
    all: first [ left; discriminate
               | right; left; eexists; split; reflexivity
               | right; right; left; tauto
               | right; right; right; tauto ].
Qed.

Lemma fruitless_attempt_warns_witness :
  In (Console Warn "No valid tokens available")
     (rotateToken (initial_manager nothing_configured 0)).2.
Proof.
  destruct fruitless_attempt_warns as [H _].
  exact (H (initial_manager nothing_configured 0) eq_refl eq_refl).
Defined.

(** ** Where the stamp comes from *)

Lemma run_lastRotation inps : forall sys,
  In (lastRotation (manager (run sys inps).1))
     (lastRotation (manager sys) :: clocks inps).
Proof.
  induction inps as [|inp rest IH]; intros sys; [now left|].
  cbn [run]. pose proof (step_effect sys inp) as E.
  destruct (step sys inp) as [sys1 es1]. destruct E as (_ & _ & E).
  specialize (IH sys1). destruct (run sys1 rest) as [sys2 es2].
  cbn [fst] in *.
  destruct inp as [| |i o now]; cbn [established_by clocks] in *.
  1,2: destruct E as (_ & <- & _); exact IH.
  destruct IH as [IH|IH]; [|right; right; exact IH].
  rewrite <- IH.
  destruct (inflight sys !! i) as [t|];
    [destruct (establishes (manager sys) t o)|];
    destruct E as (_ & -> & _); simpl; auto.
Qed.

(** X15.  [lastRotation] is never invented: at every point of every run it
    is the reading of the clock at construction or the reading that came
    with one of the answers delivered so far. *)
Theorem last_rotation_is_a_clock_reading :
  forall env now inps,
    In (lastRotation (manager (process env now inps).1)) (now :: clocks inps).
Proof.
  intros env now inps. rewrite process_fst.
  pose proof (run_lastRotation inps (constructor env now).1) as H.
  assert (H0 : lastRotation (manager (constructor env now).1) = now).
  { destruct env as [p s v ci cs].
    unfold constructor, constructor_body, initial_manager. crunch; reflexivity. }
  now rewrite H0 in H.
Qed.

(** ** Which static token the fallback turns to *)

Lemma strict_eq_true a b : strict_eq a b = true <-> a = b.
Proof.
  destruct a as [x|], b as [y|]; simpl; split; try discriminate; try reflexivity.
  - intros H. apply String.eqb_eq in H. now subst.
  - intros [= ->]. apply String.eqb_refl.
Qed.

(** One fallback attempt on its own, from the call to the answer for the
    candidate. *)
Lemma fallback_attempt tm l o_cur t_cur o_gen t_gen o_bk t_bk :
  isRotating tm = false ->
  truthy (currentToken tm) = true ->
  validates o_cur = false ->
  issued o_gen = None ->
  validates o_bk = true ->
  truthy (other_token tm) = true ->
  let gen := if credentials_usable tm then [(o_gen, t_gen)] else [] in
  let '(sys', es) :=
    attempt (mkSystem tm l) ((o_cur, t_cur) :: gen ++ [(o_bk, t_bk)]) in
  sys' = mkSystem (adopted (other_token tm) t_bk tm) l
  /\ network_calls es
     = validateToken_request (currentToken tm)
       :: (if credentials_usable tm
           then [generateNewToken_request (clientCredentials tm)]
           else [])
       ++ [validateToken_request (other_token tm)].
Proof.
  intros R C V I B T. cbv zeta. rewrite attempt_drive.
  open_outcomes; open_manager tm; simpl in *; subst rot; unfold drive;
    crunch; try discriminate; now rewrite ?app_nil_r.
Qed.

(** X16.  The fallback of [rotateToken] never asks again for the token it
    has just found invalid, unless the current, the primary and the
    secondary token are one and the same.  And it alternates: when the
    current token is the primary one and a different secondary token is
    set, an attempt whose validation fails and whose fallback succeeds
    moves to the secondary token, and the next such attempt asks for the
    primary token and moves back to it. *)
Theorem fallback_alternates :
  (forall tm candidate,
     (backup_rotation tm).1.1 = Suspend (AtValidateBackup candidate) ->
     candidate = currentToken tm ->
     currentToken tm = primary (tokens tm)
     /\ secondary (tokens tm) = primary (tokens tm))
  /\ (forall tm l o1 t1 g1 u1 o2 t2 o3 t3 g2 u2 o4 t4,
        isRotating tm = false ->
        currentToken tm = primary (tokens tm) ->
        secondary (tokens tm) <> primary (tokens tm) ->
        truthy (primary (tokens tm)) = true ->
        truthy (secondary (tokens tm)) = true ->
        validates o1 = false -> issued g1 = None -> validates o2 = true ->
        validates o3 = false -> issued g2 = None -> validates o4 = true ->
        let gen1 := if credentials_usable tm then [(g1, u1)] else [] in
        let gen2 := if credentials_usable tm then [(g2, u2)] else [] in
        let '(sys1, es1) :=
          attempt (mkSystem tm l) ((o1, t1) :: gen1 ++ [(o2, t2)]) in
        let '(sys2, es2) :=
          attempt sys1 ((o3, t3) :: gen2 ++ [(o4, t4)]) in
        currentToken (manager sys1) = secondary (tokens tm)
        /\ lastRotation (manager sys1) = t2
        /\ last (network_calls es1)
           = Some (validateToken_request (secondary (tokens tm)))
        /\ currentToken (manager sys2) = primary (tokens tm)
        /\ lastRotation (manager sys2) = t4
        /\ head (network_calls es2)
           = Some (validateToken_request (secondary (tokens tm)))
        /\ last (network_calls es2)
           = Some (validateToken_request (primary (tokens tm)))).
Proof.
  split.
  - intros tm candidate. open_manager tm. crunch; intros [= <-] E;
      match goal with
      | H : strict_eq _ _ = true |- _ =>
          apply strict_eq_true in H; split; congruence
      | H : strict_eq _ _ = false |- _ =>
          rewrite E, (proj2 (strict_eq_true _ _) eq_refl) in H; discriminate
      end.
  - intros tm l o1 t1 g1 u1 o2 t2 o3 t3 g2 u2 o4 t4 R C N TP TS V1 I1 V2 V3 I2 V4.
    cbv zeta.
    assert (O1 : other_token tm = secondary (tokens tm)).
    { unfold other_token. rewrite C.
      now rewrite (proj2 (strict_eq_true _ _) eq_refl). }
    assert (C1 : truthy (currentToken tm) = true) by now rewrite C.
    assert (T1 : truthy (other_token tm) = true) by now rewrite O1.
    pose proof (fallback_attempt tm l o1 t1 g1 u1 o2 t2 R C1 V1 I1 V2 T1) as H1.
    cbv zeta in H1.
    destruct (attempt (mkSystem tm l) _) as [sys1 es1].
    destruct H1 as [-> N1]. rewrite O1 in *.
    set (tm1 := adopted (secondary (tokens tm)) t2 tm).
    assert (O2 : other_token tm1 = primary (tokens tm)).
    { unfold other_token, tm1, adopted. simpl.
      destruct (strict_eq (secondary (tokens tm)) (primary (tokens tm))) eqn:E;
        [|reflexivity].
      apply strict_eq_true in E. contradiction. }
    assert (T2 : truthy (other_token tm1) = true) by now rewrite O2.
    pose proof (fallback_attempt tm1 l o3 t3 g2 u2 o4 t4 R TS V3 I2 V4 T2) as H2.
    cbv zeta in H2.
    change (credentials_usable tm1) with (credentials_usable tm) in H2.
    destruct (attempt (mkSystem tm1 l) _) as [sys2 es2].
    destruct H2 as [-> N2]. rewrite O2 in *.
    rewrite N1, N2. cbn [manager]. unfold tm1, adopted. simpl.
    repeat split.
    + destruct (credentials_usable tm); reflexivity.
    + destruct (credentials_usable tm); reflexivity.
Qed.

Lemma fallback_alternates_witness :
  let '(sys1, es1) :=
    attempt (mkSystem (initial_manager static_tokens 0) [])
            [(unauthorized, 1); (confirmed, 2)] in
  let '(sys2, es2) := attempt sys1 [(unauthorized, 3); (confirmed, 4)] in
  currentToken (manager sys1) = Some "tok-B"
  /\ currentToken (manager sys2) = Some "tok-A"
  /\ lastRotation (manager sys2) = 4.
Proof.
  destruct fallback_alternates as [_ H].
  specialize (H (initial_manager static_tokens 0) []
                unauthorized 1 unauthorized 0 confirmed 2
                unauthorized 3 unauthorized 0 confirmed 4
                eq_refl eq_refl).
  specialize (H ltac:(discriminate) eq_refl eq_refl eq_refl eq_refl eq_refl
                eq_refl eq_refl eq_refl).
  cbv zeta in H.
  change (if credentials_usable (initial_manager static_tokens 0)
          then [(unauthorized, 0)] else [])
    with (@nil (axios_outcome * Z)) in H.
  cbn [app] in H.
  destruct (attempt (mkSystem (initial_manager static_tokens 0) []) _)
    as [sys1 es1].
  destruct (attempt sys1 _) as [sys2 es2].
  destruct H as (H1 & _ & _ & H2 & H3 & _). now repeat split.
Defined.
